(** * keytransform: a key-transforming datastore wrapper

    A shallow embedding of [keytransform/keytransform.go] (package
    [keytransform] of go-datastore) and of the parts of the packages [key],
    [query] (imported as [dsq]) and [datastore] (imported as [ds]) that it
    uses, followed by the properties of the query planner [prepareQuery],
    of the point operations, of the result stream of [Query] and of
    batches. *)

From Stdlib Require Import Strings.Byte.
From stdpp Require Import gmap strings list sorting.

Local Open Scope Z_scope.

(** Go's builtin [error] interface: the error of a store without batching,
    or any other error, given by its message.  [None : option error] is the
    nil error. *)
Inductive error : Type :=
| errBatchUnsupported
| errorString (msg : string).

(** [context.Context] is passed through untouched; a context is identified
    by a number. *)
Definition Context : Type := nat.

(** ** Package key *)
Module key.

(** Modelled from the spec: [Key] is declared in the key package, not in
    src.  A key is an opaque, path-like identifier, ordered through its
    canonical string form.  The nil key of the Go interface is written as
    the empty key where the code does not test for nil; where it does (the
    bounds of a [Range]) the field is an [option]. *)
Definition Key : Type := string.

(** Modelled from the spec: the order of keys, not in src, is the
    lexicographic comparison, byte by byte. *)
Definition Compare (a b : Key) : comparison := String.compare a b.

(** Modelled from the spec: the prefix relation of keys, not in src.
    [HasPrefix k p]: [p] is a prefix of [k]. *)
Definition HasPrefix (k p : Key) : bool := String.prefix p k.

End key.

(** ** Package query (dsq) *)
Module dsq.

(** Modelled from the spec: [Entry] is declared in the query package, not
    in src.  An entry has a key, a value and a size. *)
Record Entry : Type := mkEntry {
  Key : key.Key;
  Value : list byte;
  Size : Z
}.

(** Modelled from the spec: [Result] is declared in the query package, not
    in src.  It embeds [Entry] and carries the error of the entry, if any. *)
Record Result : Type := mkResult {
  Entry_ : Entry;
  Error : option error
}.

(** Modelled from the spec: [Results] is declared in the query package, not
    in src.  A result stream is the finite sequence of the results it
    yields. *)
Abbreviation Results := (list Result).

(** Modelled from the spec: the comparison operators of the compare
    filters, declared in the query package, not in src. *)
Inductive Op : Type :=
| Equal | NotEqual | GreaterThan | GreaterThanOrEqual | LessThan | LessThanOrEqual.

(** Modelled from the spec: the interface [Filter] and its implementations
    are declared in the query package, not in src.  These are the dynamic
    types the type switch of [prepareQuery] tells apart: the three filters
    of the package, by value or by pointer, and any other implementation of
    the interface ([FilterFunc], given by its [Filter] method).  A pointer
    is modelled by the struct it points to and is never nil. *)
Inductive Filter : Type :=
| FilterValueCompare (op : Op) (v : list byte)
| FilterValueComparePtr (op : Op) (v : list byte)
| FilterKeyCompare (op : Op) (k : key.Key)
| FilterKeyComparePtr (op : Op) (k : key.Key)
| FilterKeyPrefix (p : key.Key)
| FilterKeyPrefixPtr (p : key.Key)
| FilterFunc (f : Entry -> bool).

(** Modelled from the spec: the interface [Order] and its implementations
    are declared in the query package, not in src.  These are the dynamic
    types the type switch of [prepareQuery] tells apart; [OrderByFunction]
    stands for every implementation other than the four of the package,
    given by its [Compare] method. *)
Inductive Order : Type :=
| OrderByValue | OrderByValuePtr
| OrderByValueDescending | OrderByValueDescendingPtr
| OrderByKey | OrderByKeyPtr
| OrderByKeyDescending | OrderByKeyDescendingPtr
| OrderByFunction (f : Entry -> Entry -> comparison).

(** Modelled from the spec: [Range] is declared in the query package, not
    in src.  Its bounds are optional; the code tests them for nil. *)
Record Range : Type := mkRange {
  Start : option key.Key;
  End_ : option key.Key
}.

(** Modelled from the spec: [Query] is declared in the query package, not
    in src.  These are the fields the spec lists, which are the fields
    [prepareQuery] reads and writes. *)
Record Query : Type := mkQuery {
  Prefix : key.Key;
  Range_ : Range;
  Orders : list Order;
  Filters : list Filter;
  Offset : Z;
  Limit : Z
}.

(** The zero values [dsq.Range{}] and [dsq.Query{}]. *)
Definition zeroRange : Range := mkRange None None.
Definition zeroQuery : Query := mkQuery "" zeroRange [] [] 0 0.
Definition zeroEntry : Entry := mkEntry "" [] 0.
Definition zeroResult : Result := mkResult zeroEntry None.

(** Field assignments [q.F = v]. *)
Definition setPrefix (q : Query) (p : key.Key) : Query :=
  mkQuery p (Range_ q) (Orders q) (Filters q) (Offset q) (Limit q).
Definition setRange (q : Query) (r : Range) : Query :=
  mkQuery (Prefix q) r (Orders q) (Filters q) (Offset q) (Limit q).
Definition setOrders (q : Query) (os : list Order) : Query :=
  mkQuery (Prefix q) (Range_ q) os (Filters q) (Offset q) (Limit q).
Definition setFilters (q : Query) (fs : list Filter) : Query :=
  mkQuery (Prefix q) (Range_ q) (Orders q) fs (Offset q) (Limit q).
Definition setOffset (q : Query) (n : Z) : Query :=
  mkQuery (Prefix q) (Range_ q) (Orders q) (Filters q) n (Limit q).
Definition setLimit (q : Query) (n : Z) : Query :=
  mkQuery (Prefix q) (Range_ q) (Orders q) (Filters q) (Offset q) n.
Definition setStart (r : Range) (k : option key.Key) : Range := mkRange k (End_ r).
Definition setEnd (r : Range) (k : option key.Key) : Range := mkRange (Start r) k.

(** [r.Entry.Key = k] *)
Definition setKey (r : Result) (k : key.Key) : Result :=
  mkResult (mkEntry k (Value (Entry_ r)) (Size (Entry_ r))) (Error r).

(** Modelled from the spec: the method [NextSync] of [Results], not in src.
    [cqr.NextSync()] is the next result of a stream and whether there was
    one, with the stream that is left. *)
Definition NextSync (rs : Results) : (Result * bool) * Results :=
  match rs with
  | [] => ((zeroResult, false), [])
  | r :: rs' => ((r, true), rs')
  end.

(** Modelled from the spec: the method [Close] of [Results], not in src.
    A closed stream yields nothing more. *)
Definition ResultsClose (rs : Results) : option error * Results := (None, []).

Section Iterators.
(** The variables the closures of an iterator capture. *)
Context {St : Type}.

(** Modelled from the spec: [Iterator] is declared in the query package,
    not in src: a [Next] and a [Close] closure, here functions of the
    variables they capture. *)
Record Iterator : Type := mkIterator {
  Next : St -> (Result * bool) * St;
  Close : St -> option error * St
}.

(** Modelled from the spec: [ResultsFromIterator] is declared in the query
    package, not in src.  The stream it builds yields what [Next] returns
    until [Next] reports false; [fuel] bounds the number of calls. *)
Fixpoint ResultsFromIterator (fuel : nat) (q : Query) (it : Iterator) (st : St)
    : Results :=
  match fuel with
  | O => []
  | S fuel' =>
    let '((r, ok), st') := Next it st in
    if ok then r :: ResultsFromIterator fuel' q it st' else []
  end.
End Iterators.
Arguments Iterator : clear implicits.

(** *** The naive query post-processor

    [NaiveQueryApply] and the methods [Filter] and [Compare] of the filters
    and orders are declared in the query package, not in src.  By the spec
    the post-processor applies the filters in list order, then the orders
    (the first one is the primary sort key, the next ones break ties), then
    the offset, then the limit. *)

(** Modelled from the spec: the order of values, not in src, is the
    lexicographic comparison of their bytes. *)
Definition bytesCompare (a b : list byte) : comparison :=
  String.compare (String.string_of_list_byte a) (String.string_of_list_byte b).

(** Modelled from the spec: what an operator of a compare filter makes of
    a comparison; not in src. *)
Definition evalOp (op : Op) (c : comparison) : bool :=
  match op, c with
  | Equal, Eq => true
  | NotEqual, Lt | NotEqual, Gt => true
  | GreaterThan, Gt => true
  | GreaterThanOrEqual, Gt | GreaterThanOrEqual, Eq => true
  | LessThan, Lt => true
  | LessThanOrEqual, Lt | LessThanOrEqual, Eq => true
  | _, _ => false
  end.

(** Modelled from the spec: the method [Filter] of a filter, not in src.
    [f.Filter(e)] tells whether the entry passes. *)
Definition filterEntry (f : Filter) (e : Entry) : bool :=
  match f with
  | FilterValueCompare op v | FilterValueComparePtr op v =>
    evalOp op (bytesCompare (Value e) v)
  | FilterKeyCompare op k | FilterKeyComparePtr op k =>
    evalOp op (key.Compare (Key e) k)
  | FilterKeyPrefix p | FilterKeyPrefixPtr p => key.HasPrefix (Key e) p
  | FilterFunc f => f e
  end.

(** Modelled from the spec: the method [Compare] of an order, not in src. *)
Definition orderCompare (o : Order) (a b : Entry) : comparison :=
  match o with
  | OrderByValue | OrderByValuePtr => bytesCompare (Value a) (Value b)
  | OrderByValueDescending | OrderByValueDescendingPtr =>
    CompOpp (bytesCompare (Value a) (Value b))
  | OrderByKey | OrderByKeyPtr => key.Compare (Key a) (Key b)
  | OrderByKeyDescending | OrderByKeyDescendingPtr =>
    CompOpp (key.Compare (Key a) (Key b))
  | OrderByFunction f => f a b
  end.

(** Modelled from the spec: the comparison by a list of orders, not in
    src.  The first order is the primary sort key and the next ones break
    ties: the first order that tells [a] and [b] apart decides. *)
Fixpoint compareOrders (os : list Order) (a b : Entry) : comparison :=
  match os with
  | [] => Eq
  | o :: os' =>
    match orderCompare o a b with
    | Eq => compareOrders os' a b
    | c => c
    end
  end.

(** Modelled from the spec: [a] does not come after [b] in the order of
    [os]; not in src. *)
Definition notAfter (os : list Order) (a b : Result) : bool :=
  match compareOrders os (Entry_ a) (Entry_ b) with
  | Gt => false
  | _ => true
  end.

(** Modelled from the spec: the sort of the post-processor, not in src, as
    a stable insertion sort: [x] goes before the first element it is not
    after, so that entries no order tells apart keep their relative
    position. *)
Fixpoint insertBy {A : Type} (le : A -> A -> bool) (x : A) (l : list A) : list A :=
  match l with
  | [] => [x]
  | y :: l' => if le x y then x :: y :: l' else y :: insertBy le x l'
  end.

(** Modelled from the spec: see [insertBy]. *)
Fixpoint sortBy {A : Type} (le : A -> A -> bool) (l : list A) : list A :=
  match l with
  | [] => []
  | x :: l' => insertBy le x (sortBy le l')
  end.

(** Modelled from the spec: [NaiveFilter], not in src, keeps the results
    whose entry passes the filter. *)
Definition NaiveFilter (rs : Results) (f : Filter) : Results :=
  List.filter (fun r => filterEntry f (Entry_ r)) rs.

(** Modelled from the spec: [NaiveOrder], not in src, sorts by the orders,
    and does nothing without orders. *)
Definition NaiveOrder (rs : Results) (os : list Order) : Results :=
  match os with
  | [] => rs
  | _ => sortBy (notAfter os) rs
  end.

(** Modelled from the spec: [NaiveOffset], not in src, skips [n] results. *)
Definition NaiveOffset (rs : Results) (n : Z) : Results := drop (Z.to_nat n) rs.

(** Modelled from the spec: [NaiveLimit], not in src, keeps at most [n]
    results; zero is no limit. *)
Definition NaiveLimit (rs : Results) (n : Z) : Results :=
  if n =? 0 then rs else take (Z.to_nat n) rs.

(** Modelled from the spec: [NaiveQueryApply], not in src, applies the
    residual filters, orders, offset and limit of a query to a stream. *)
Definition NaiveQueryApply (q : Query) (rs : Results) : Results :=
  let rs := fold_left NaiveFilter (Filters q) rs in
  let rs := NaiveOrder rs (Orders q) in
  let rs := NaiveOffset rs (Offset q) in
  NaiveLimit rs (Limit q).

(** *** A store's own query execution *)

(** Modelled from the spec: the range of a query, not in src, is half-open:
    from [Start] on, before [End]. *)
Definition inRange (r : Range) (k : key.Key) : bool :=
  match Start r with
  | Some s => match key.Compare k s with Lt => false | _ => true end
  | None => true
  end
  &&
  match End_ r with
  | Some e => match key.Compare k e with Lt => true | _ => false end
  | None => true
  end.

(** Modelled from the spec: the entries of a store as a stream without
    errors; not in src. *)
Definition scan (contents : list Entry) : Results :=
  map (fun e => mkResult e None) contents.

(** Modelled from the spec: the query engine of a store is not in src.  A
    store that holds [contents], in this order, answers a query with the
    entries under the prefix and within the range, filtered, ordered,
    skipped and cut as the query says. *)
Definition execute (q : Query) (contents : list Entry) : Results :=
  let rs := scan contents in
  let rs := List.filter (fun r => key.HasPrefix (Key (Entry_ r)) (Prefix q)) rs in
  let rs := List.filter (fun r => inRange (Range_ q) (Key (Entry_ r))) rs in
  NaiveQueryApply q rs.

End dsq.

(** ** Package datastore (ds): the interfaces of the child store *)
Module ds.

(** Modelled from the spec: [ErrBatchUnsupported] is declared in the
    datastore package, not in src: the error of a store without batching. *)
Definition ErrBatchUnsupported : error := errBatchUnsupported.

Section Interfaces.
(** The state of the world the child store lives in. *)
Context {W : Type}.

(** Modelled from the spec: the interface [Batch] is declared in the
    datastore package, not in src: buffered Put and Delete, and Commit. *)
Record Batch : Type := mkBatch {
  BatchPut : Context -> key.Key -> list byte -> W -> option error * W;
  BatchDelete : Context -> key.Key -> W -> option error * W;
  Commit : Context -> W -> option error * W
}.

(** Modelled from the spec: the interface [Datastore] is declared in the
    datastore package, not in src; these are the methods the wrapper
    calls.  [Batching] is [Some] when the dynamic type of the store also
    implements [ds.Batching], and then holds its [Batch] method, which
    returns a batch (possibly nil) and an error. *)
Record Datastore : Type := mkDatastore {
  Put : Context -> key.Key -> list byte -> W -> option error * W;
  Sync : Context -> key.Key -> W -> option error * W;
  Get : Context -> key.Key -> W -> (list byte * option error) * W;
  Has : Context -> key.Key -> W -> (bool * option error) * W;
  GetSize : Context -> key.Key -> W -> (Z * option error) * W;
  Delete : Context -> key.Key -> W -> option error * W;
  Query : Context -> dsq.Query -> W -> (dsq.Results * option error) * W;
  Close : W -> option error * W;
  Batching : option (Context -> W -> (option Batch * option error) * W)
}.
End Interfaces.

Arguments Batch : clear implicits.
Arguments Datastore : clear implicits.

End ds.

(** ** Package keytransform *)
Module keytransform.

(** Modelled from the spec: [KeyMapping] is declared in interface.go, not
    in src: a function from keys to keys. *)
Definition KeyMapping : Type := key.Key -> key.Key.

(** Modelled from the spec: the implementations of [KeyTransform] are
    declared in transforms.go, not in src.  This is what the type switch of
    [prepareQuery] tells apart. *)
Inductive TransformType : Type :=
| TPrefixTransform | TPrefixTransformPtr | TOther.

(** Modelled from the spec: the interface [KeyTransform] is declared in
    interface.go, not in src: its two methods, with the dynamic type of the
    value. *)
Record KeyTransform : Type := mkKeyTransform {
  ConvertKey : KeyMapping;
  InvertKey : KeyMapping;
  dynamicType : TransformType
}.

(** [Datastore] keeps a child store and embeds a [KeyTransform]. *)
Record Datastore {W : Type} : Type := mkDatastore {
  child : ds.Datastore W;
  KeyTransform_ : KeyTransform
}.
Arguments Datastore : clear implicits.

Section Methods.
Context {W : Type}.

(** [key.Clean], of the key package. *)
Variable Clean : key.Key -> key.Key.

Implicit Types (d : Datastore W) (q : dsq.Query).

(** [Wrap] panics ([None]) on a nil transform or a nil child. *)
Definition Wrap (c : option (ds.Datastore W)) (t : option KeyTransform)
  : option (Datastore W) :=
  match t with
  | None => None
  | Some t =>
    match c with
    | None => None
    | Some c => Some (mkDatastore W c t)
    end
  end.

Definition Put d (ctx : Context) (k : key.Key) (value : list byte) (s : W) :=
  ds.Put (child d) ctx (ConvertKey (KeyTransform_ d) k) value s.

Definition Sync d (ctx : Context) (prefix : key.Key) (s : W) :=
  ds.Sync (child d) ctx (ConvertKey (KeyTransform_ d) prefix) s.

Definition Get d (ctx : Context) (k : key.Key) (s : W) :=
  ds.Get (child d) ctx (ConvertKey (KeyTransform_ d) k) s.

Definition Has d (ctx : Context) (k : key.Key) (s : W) :=
  ds.Has (child d) ctx (ConvertKey (KeyTransform_ d) k) s.

Definition GetSize d (ctx : Context) (k : key.Key) (s : W) :=
  ds.GetSize (child d) ctx (ConvertKey (KeyTransform_ d) k) s.

Definition Delete d (ctx : Context) (k : key.Key) (s : W) :=
  ds.Delete (child d) ctx (ConvertKey (KeyTransform_ d) k) s.

(** *** prepareQuery *)

(** The type switch on [d.KeyTransform]. *)
Definition orderPreserving d : bool :=
  match dynamicType (KeyTransform_ d) with
  | TPrefixTransform | TPrefixTransformPtr => true
  | TOther => false
  end.

(** "Can't handle this order under transform, punt it to a naive
    ordering." *)
Definition puntOrders q (naive child : dsq.Query) : dsq.Query * dsq.Query :=
  let naive := dsq.setOrders naive (dsq.Orders q) in
  let child := dsq.setOrders child [] in
  let naive := dsq.setOffset naive (dsq.Offset q) in
  let child := dsq.setOffset child 0 in
  let naive := dsq.setLimit naive (dsq.Limit q) in
  let child := dsq.setLimit child 0 in
  (naive, child).

(** The loop labelled [orders], from index [i] on; [rest] is what is
    left of the slice the [range] clause was evaluated on. *)
Fixpoint ordersLoop (op : bool) q (i : nat) (rest : list dsq.Order)
    (naive child : dsq.Query) : dsq.Query * dsq.Query :=
  match rest with
  | [] => (naive, child)
  | o :: rest' =>
    match o with
    | dsq.OrderByValue | dsq.OrderByValuePtr
    | dsq.OrderByValueDescending | dsq.OrderByValueDescendingPtr =>
      ordersLoop op q (S i) rest' naive child
    | dsq.OrderByKey | dsq.OrderByKeyPtr
    | dsq.OrderByKeyDescending | dsq.OrderByKeyDescendingPtr =>
      if op
      then (naive, dsq.setOrders child (take (S i) (dsq.Orders child)))
      else puntOrders q naive child
    | dsq.OrderByFunction _ => puntOrders q naive child
    end
  end.

(** "Not a known filter, defer to the naive implementation." *)
Definition puntFilters q (naive child : dsq.Query) : dsq.Query * dsq.Query :=
  let naive := dsq.setFilters naive (dsq.Filters q) in
  let child := dsq.setFilters child [] in
  let naive := dsq.setOffset naive (dsq.Offset q) in
  let child := dsq.setOffset child 0 in
  let naive := dsq.setLimit naive (dsq.Limit q) in
  let child := dsq.setLimit child 0 in
  (naive, child).

(** The loop over [child.Filters], from index [i] on.  An element is
    read before the same index is written, so the elements still to be
    visited are those of the slice as it was when the loop began. *)
Fixpoint filtersLoop d q (i : nat) (rest : list dsq.Filter)
    (naive child : dsq.Query) : dsq.Query * dsq.Query :=
  let conv := ConvertKey (KeyTransform_ d) in
  match rest with
  | [] => (naive, child)
  | f :: rest' =>
    match f with
    | dsq.FilterValueCompare _ _ | dsq.FilterValueComparePtr _ _ =>
      filtersLoop d q (S i) rest' naive child
    | dsq.FilterKeyCompare op k =>
      filtersLoop d q (S i) rest' naive
        (dsq.setFilters child
           (<[i := dsq.FilterKeyCompare op (conv k)]> (dsq.Filters child)))
    | dsq.FilterKeyComparePtr op k =>
      filtersLoop d q (S i) rest' naive
        (dsq.setFilters child
           (<[i := dsq.FilterKeyComparePtr op (conv k)]> (dsq.Filters child)))
    | dsq.FilterKeyPrefix p =>
      filtersLoop d q (S i) rest' naive
        (dsq.setFilters child
           (<[i := dsq.FilterKeyPrefix (conv p)]> (dsq.Filters child)))
    | dsq.FilterKeyPrefixPtr p =>
      filtersLoop d q (S i) rest' naive
        (dsq.setFilters child
           (<[i := dsq.FilterKeyPrefixPtr (conv p)]> (dsq.Filters child)))
    | dsq.FilterFunc _ => puntFilters q naive child
    end
  end.

(** Returns [(naive, child)].  [naive] is a named result: it starts as
    the zero [Query]. *)
Definition prepareQuery d q : dsq.Query * dsq.Query :=
  let conv := ConvertKey (KeyTransform_ d) in
  let naive := dsq.zeroQuery in
  let child := q in
  let child := dsq.setPrefix child (conv (Clean (dsq.Prefix child))) in
  let child := dsq.setRange child dsq.zeroRange in
  let child :=
    match dsq.Start (dsq.Range_ child) with
    | Some start =>
      dsq.setRange child (dsq.setStart (dsq.Range_ child) (Some (conv start)))
    | None => child
    end in
  let child :=
    match dsq.End_ (dsq.Range_ child) with
    | Some e =>
      dsq.setRange child (dsq.setEnd (dsq.Range_ child) (Some (conv e)))
    | None => child
    end in
  let '(naive, child) :=
    ordersLoop (orderPreserving d) q 0 (dsq.Orders child) naive child in
  (* append([]dsq.Filter(nil), child.Filters...): a copy, element by element *)
  let child := dsq.setFilters child (dsq.Filters child) in
  filtersLoop d q 0 (dsq.Filters child) naive child.

(** *** Query *)

(** The [Next] closure of [Query]; its captured variable is [cqr]. *)
Definition queryNext d (cqr : dsq.Results) : (dsq.Result * bool) * dsq.Results :=
  let '((r, ok), cqr) := dsq.NextSync cqr in
  if negb ok then ((r, false), cqr)
  else
    let r :=
      match dsq.Error r with
      | None => dsq.setKey r (InvertKey (KeyTransform_ d) (dsq.Key (dsq.Entry_ r)))
      | Some _ => r
      end in
    ((r, true), cqr).

(** The [Close] closure of [Query]. *)
Definition queryClose (cqr : dsq.Results) : option error * dsq.Results :=
  dsq.ResultsClose cqr.

(** [Query] returns [(nil, err)] when the child's query fails.  The stream
    of the child is finite: one call of [Next] more than it has results
    exhausts it. *)
Definition Query d (ctx : Context) q (s : W)
    : (option dsq.Results * option error) * W :=
  let '(nq, cq) := prepareQuery d q in
  let '((cqr, err), s) := ds.Query (child d) ctx cq s in
  match err with
  | Some e => ((None, Some e), s)
  | None =>
    let qr :=
      dsq.ResultsFromIterator (S (length cqr)) q
        (dsq.mkIterator (queryNext d) queryClose) cqr in
    ((Some (dsq.NaiveQueryApply nq qr), None), s)
  end.

Definition Close d (s : W) : option error * W := ds.Close (child d) s.

(** [Children] implements [ds.Shim]. *)
Definition Children d : list (ds.Datastore W) := [child d].

(** *** Batch *)

Record transformBatch : Type := mkTransformBatch {
  dst : option (ds.Batch W);
  f : KeyMapping
}.

Definition Batch d (ctx : Context) (s : W)
    : (option transformBatch * option error) * W :=
  match ds.Batching (child d) with
  | None => ((None, Some ds.ErrBatchUnsupported), s)
  | Some bds =>
    let '((childbatch, err), s) := bds ctx s in
    match err with
    | Some e => ((None, Some e), s)
    | None =>
      ((Some (mkTransformBatch childbatch (ConvertKey (KeyTransform_ d))), None), s)
    end
  end.

(** The methods of [transformBatch]; calling a method of a nil [dst]
    panics ([None]). *)
Definition transformBatch_Put (t : transformBatch) (ctx : Context)
    (k : key.Key) (val : list byte) (s : W) : option (option error * W) :=
  match dst t with
  | None => None
  | Some b => Some (ds.BatchPut b ctx (f t k) val s)
  end.

Definition transformBatch_Delete (t : transformBatch) (ctx : Context)
    (k : key.Key) (s : W) : option (option error * W) :=
  match dst t with
  | None => None
  | Some b => Some (ds.BatchDelete b ctx (f t k) s)
  end.

Definition transformBatch_Commit (t : transformBatch) (ctx : Context) (s : W)
    : option (option error * W) :=
  match dst t with
  | None => None
  | Some b => Some (ds.Commit b ctx s)
  end.

End Methods.

Arguments transformBatch : clear implicits.

(** A [transformBatch] as a value of the interface [ds.Batch].  Every method
    of a [transformBatch] over a nil batch panics, as every method of a nil
    batch does: it is given as the nil batch. *)
Definition asBatch {W : Type} (t : transformBatch W) : option (ds.Batch W) :=
  match dst t with
  | None => None
  | Some b =>
    Some (ds.mkBatch
            (fun ctx k val s => ds.BatchPut b ctx (f t k) val s)
            (fun ctx k s => ds.BatchDelete b ctx (f t k) s)
            (fun ctx s => ds.Commit b ctx s))
  end.

(** A wrapper as a value of the interface [ds.Datastore], which it
    implements together with [ds.Batching] (the interface assertions that
    end the source file): its methods are those above.
    The nil stream [Query] returns with an error is given as the empty
    stream. *)
Definition asDatastore {W : Type} (Clean : key.Key -> key.Key) (d : Datastore W)
    : ds.Datastore W :=
  ds.mkDatastore
    (Put d) (Sync d) (Get d) (Has d) (GetSize d) (Delete d)
    (fun ctx q s =>
       let '((qr, err), s) := Query Clean d ctx q s in
       ((default [] qr, err), s))
    (Close d)
    (Some (fun ctx s =>
             let '((t, err), s) := Batch d ctx s in
             ((t ≫= asBatch, err), s))).

(** Modelled from the spec: [PrefixTransform] is declared in transforms.go,
    not in src.  It only prepends a fixed prefix, and strips it again. *)
Definition PrefixTransform (prefix : key.Key) : KeyTransform :=
  mkKeyTransform
    (fun k => prefix +:+ k)
    (fun k => String.substring (String.length prefix)
                (String.length k - String.length prefix) k)
    TPrefixTransform.

End keytransform.


(** ** Child stores used in examples

    An in-memory store, whose state is the sequence of its entries, one per
    key, and whose query engine is [dsq.execute]; and a store that records
    the calls it receives. *)
Module memstore.

Definition ErrNotFound : error := errorString "datastore: key not found".

Fixpoint find (k : key.Key) (es : list dsq.Entry) : option dsq.Entry :=
  match es with
  | [] => None
  | e :: es' => if String.eqb (dsq.Key e) k then Some e else find k es'
  end.

Definition entry (k : key.Key) (v : list byte) : dsq.Entry :=
  dsq.mkEntry k v (Z.of_nat (length v)).

Fixpoint put (k : key.Key) (v : list byte) (es : list dsq.Entry) : list dsq.Entry :=
  match es with
  | [] => [entry k v]
  | e :: es' => if String.eqb (dsq.Key e) k then entry k v :: es' else e :: put k v es'
  end.

Definition remove (k : key.Key) (es : list dsq.Entry) : list dsq.Entry :=
  List.filter (fun e => negb (String.eqb (dsq.Key e) k)) es.

(** The store: Put, Sync, Get, Has, GetSize, Delete, Query and Close, and no
    batching. *)
Definition store : ds.Datastore (list dsq.Entry) :=
  ds.mkDatastore
    (fun _ k v es => (None, put k v es))
    (fun _ _ es => (None, es))
    (fun _ k es =>
       match find k es with
       | Some e => ((dsq.Value e, None), es)
       | None => (([], Some ErrNotFound), es)
       end)
    (fun _ k es => ((bool_decide (is_Some (find k es)), None), es))
    (fun _ k es =>
       match find k es with
       | Some e => ((dsq.Size e, None), es)
       | None => ((-1, Some ErrNotFound), es)
       end)
    (fun _ k es => (None, remove k es))
    (fun _ q es => ((dsq.execute q es, None), es))
    (fun es => (None, es))
    None.

(** An entry under its converted key. *)
Definition convertEntry (t : keytransform.KeyTransform) (e : dsq.Entry) : dsq.Entry :=
  dsq.mkEntry (keytransform.ConvertKey t (dsq.Key e)) (dsq.Value e) (dsq.Size e).

(** What the store holds for a wrapper around it whose logical contents are
    [es]: the same entries, in the same order, under their converted keys. *)
Definition physical (t : keytransform.KeyTransform) (es : list dsq.Entry)
    : list dsq.Entry :=
  map (convertEntry t) es.

(** A result of the logical store, as the child store yields it. *)
Definition convertResult (t : keytransform.KeyTransform) (r : dsq.Result) : dsq.Result :=
  dsq.mkResult (convertEntry t (dsq.Entry_ r)) (dsq.Error r).

End memstore.

Module recorder.

(** The calls a child can receive. *)
Inductive Call : Type :=
| CallPut (ctx : Context) (k : key.Key) (v : list byte)
| CallSync (ctx : Context) (k : key.Key)
| CallGet (ctx : Context) (k : key.Key)
| CallHas (ctx : Context) (k : key.Key)
| CallGetSize (ctx : Context) (k : key.Key)
| CallDelete (ctx : Context) (k : key.Key)
| CallQuery (ctx : Context) (q : dsq.Query)
| CallClose
| CallBatch (ctx : Context)
| CallBatchPut (ctx : Context) (k : key.Key) (v : list byte)
| CallBatchDelete (ctx : Context) (k : key.Key)
| CallCommit (ctx : Context).

Definition batch : ds.Batch (list Call) :=
  ds.mkBatch
    (fun ctx k v log => (None, log ++ [CallBatchPut ctx k v]))
    (fun ctx k log => (None, log ++ [CallBatchDelete ctx k]))
    (fun ctx log => (None, log ++ [CallCommit ctx])).

(** A child, with batching or without, that appends every call to its
    state and answers with zero values. *)
Definition store (batching : bool) : ds.Datastore (list Call) :=
  ds.mkDatastore
    (fun ctx k v log => (None, log ++ [CallPut ctx k v]))
    (fun ctx k log => (None, log ++ [CallSync ctx k]))
    (fun ctx k log => (([], None), log ++ [CallGet ctx k]))
    (fun ctx k log => ((false, None), log ++ [CallHas ctx k]))
    (fun ctx k log => ((0, None), log ++ [CallGetSize ctx k]))
    (fun ctx k log => (None, log ++ [CallDelete ctx k]))
    (fun ctx q log => (([], None), log ++ [CallQuery ctx q]))
    (fun log => (None, log ++ [CallClose]))
    (if batching
     then Some (fun ctx log => ((Some batch, None), log ++ [CallBatch ctx]))
     else None).

End recorder.

Module faulty.

Definition ErrClosed : error := errorString "datastore: closed".

(** A child that records its calls as [recorder.store] does, whose queries
    fail and whose [Batch] returns neither a batch nor an error. *)
Definition store : ds.Datastore (list recorder.Call) :=
  ds.mkDatastore
    (fun ctx k v log => (None, log ++ [recorder.CallPut ctx k v]))
    (fun ctx k log => (None, log ++ [recorder.CallSync ctx k]))
    (fun ctx k log => (([], None), log ++ [recorder.CallGet ctx k]))
    (fun ctx k log => ((false, None), log ++ [recorder.CallHas ctx k]))
    (fun ctx k log => ((0, None), log ++ [recorder.CallGetSize ctx k]))
    (fun ctx k log => (None, log ++ [recorder.CallDelete ctx k]))
    (fun ctx q log => (([], Some ErrClosed), log ++ [recorder.CallQuery ctx q]))
    (fun log => (None, log ++ [recorder.CallClose]))
    (Some (fun ctx log => ((None, None), log ++ [recorder.CallBatch ctx]))).

End faulty.


(** ** prepareQuery on the heap

    The same function with the slices of a query as Go has them: a slice is
    a window on a backing array that lives in the heap, a copy of a query
    shares the arrays of the original, and a filter held by pointer refers
    to a struct in the heap. *)
Module mem.

(** Addresses. *)
Definition loc : Type := positive.

(** A [dsq.Filter] interface value: its dynamic type with the struct, or
    with the pointer to it. *)
Inductive Filter : Type :=
| FilterValueCompare (op : dsq.Op) (v : list byte)
| FilterValueComparePtr (p : loc)
| FilterKeyCompare (op : dsq.Op) (k : key.Key)
| FilterKeyComparePtr (p : loc)
| FilterKeyPrefix (p : key.Key)
| FilterKeyPrefixPtr (p : loc)
| FilterFunc (f : dsq.Entry -> bool).

(** What the heap holds: the backing arrays of slices of filters and of
    orders, and the structs filters point to. *)
Inductive Object : Type :=
| ArrFilters (a : list Filter)
| ArrOrders (a : list dsq.Order)
| ObjValueCompare (op : dsq.Op) (v : list byte)
| ObjKeyCompare (op : dsq.Op) (k : key.Key)
| ObjKeyPrefix (p : key.Key).

Abbreviation Heap := (gmap loc Object).

(** A slice header; [cap] counts from [off].  The nil slice has no array. *)
Record Slice : Type := mkSlice {
  array : option loc;
  off : nat;
  len : nat;
  cap : nat
}.

Definition nilSlice : Slice := mkSlice None 0 0 0.

(** [dsq.Query], with its two slices. *)
Record Query : Type := mkQuery {
  Prefix : key.Key;
  Range_ : dsq.Range;
  Orders : Slice;
  Filters : Slice;
  Offset : Z;
  Limit : Z
}.

Definition zeroQuery : Query := mkQuery "" dsq.zeroRange nilSlice nilSlice 0 0.

(** Field assignments [q.F = v]. *)
Definition setPrefix (q : Query) (p : key.Key) : Query :=
  mkQuery p (Range_ q) (Orders q) (Filters q) (Offset q) (Limit q).
Definition setRange (q : Query) (r : dsq.Range) : Query :=
  mkQuery (Prefix q) r (Orders q) (Filters q) (Offset q) (Limit q).
Definition setOrders (q : Query) (os : Slice) : Query :=
  mkQuery (Prefix q) (Range_ q) os (Filters q) (Offset q) (Limit q).
Definition setFilters (q : Query) (fs : Slice) : Query :=
  mkQuery (Prefix q) (Range_ q) (Orders q) fs (Offset q) (Limit q).
Definition setOffset (q : Query) (n : Z) : Query :=
  mkQuery (Prefix q) (Range_ q) (Orders q) (Filters q) n (Limit q).
Definition setLimit (q : Query) (n : Z) : Query :=
  mkQuery (Prefix q) (Range_ q) (Orders q) (Filters q) (Offset q) n.

(** The elements a slice shows of an array, when it fits the array. *)
Definition window {A : Type} (sl : Slice) (a : list A) : option (list A) :=
  if decide (len sl ≤ cap sl ∧ off sl + cap sl ≤ length a)%nat
  then Some (take (len sl) (drop (off sl) a))
  else None.

(** The array at an address, when there is one of the right type. *)
Definition filtersArray (h : Heap) (l : loc) : option (list Filter) :=
  match h !! l with
  | Some (ArrFilters a) => Some a
  | _ => None
  end.

Definition ordersArray (h : Heap) (l : loc) : option (list dsq.Order) :=
  match h !! l with
  | Some (ArrOrders a) => Some a
  | _ => None
  end.

(** The elements of a slice. *)
Definition readFilters (h : Heap) (sl : Slice) : option (list Filter) :=
  match array sl with
  | None => window sl []
  | Some l => a ← filtersArray h l; window sl a
  end.

Definition readOrders (h : Heap) (sl : Slice) : option (list dsq.Order) :=
  match array sl with
  | None => window sl []
  | Some l => a ← ordersArray h l; window sl a
  end.

(** [sl[i]]; an index out of range panics ([None]). *)
Definition indexFilters (h : Heap) (sl : Slice) (i : nat) : option Filter :=
  fs ← readFilters h sl; fs !! i.

Definition indexOrders (h : Heap) (sl : Slice) (i : nat) : option dsq.Order :=
  os ← readOrders h sl; os !! i.

(** [sl[i] = x] *)
Definition storeFilter (h : Heap) (sl : Slice) (i : nat) (x : Filter) : option Heap :=
  l ← array sl;
  a ← filtersArray h l;
  _ ← window sl a;
  if decide (i < len sl)%nat
  then Some (<[l := ArrFilters (<[(off sl + i)%nat := x]> a)]> h)
  else None.

(** [sl[:n]] *)
Definition resliceTo (sl : Slice) (n : nat) : option Slice :=
  if decide (n ≤ cap sl)%nat
  then Some (mkSlice (array sl) (off sl) n (cap sl))
  else None.

(** [append([]dsq.Filter(nil), sl...)]: nil when there is nothing to
    append, else a fresh array that holds the elements of [sl] (the
    capacity Go gives it is at least its length, and is not looked at). *)
Definition appendToNil (h : Heap) (sl : Slice) : option (Heap * Slice) :=
  fs ← readFilters h sl;
  match fs with
  | [] => Some (h, nilSlice)
  | _ :: _ =>
    let l := fresh (dom h) in
    Some (<[l := ArrFilters fs]> h, mkSlice (Some l) 0 (length fs) (length fs))
  end.

(** [&T{...}]: a new struct. *)
Definition new (h : Heap) (o : Object) : Heap * loc :=
  let l := fresh (dom h) in (<[l := o]> h, l).

Section Methods.
Context {W : Type}.
Variable Clean : key.Key -> key.Key.
Implicit Types (d : keytransform.Datastore W) (q : Query) (h : Heap).

Definition puntOrders q (naive child : Query) : Query * Query :=
  let naive := setOrders naive (Orders q) in
  let child := setOrders child nilSlice in
  let naive := setOffset naive (Offset q) in
  let child := setOffset child 0 in
  let naive := setLimit naive (Limit q) in
  let child := setLimit child 0 in
  (naive, child).

(** The loop labelled [orders] over the slice [rng], with [n] elements to
    go from index [i]. *)
Fixpoint ordersLoop (op : bool) h q (rng : Slice) (n i : nat)
    (naive child : Query) : option (Query * Query) :=
  match n with
  | O => Some (naive, child)
  | S n' =>
    o ← indexOrders h rng i;
    match o with
    | dsq.OrderByValue | dsq.OrderByValuePtr
    | dsq.OrderByValueDescending | dsq.OrderByValueDescendingPtr =>
      ordersLoop op h q rng n' (S i) naive child
    | dsq.OrderByKey | dsq.OrderByKeyPtr
    | dsq.OrderByKeyDescending | dsq.OrderByKeyDescendingPtr =>
      if op
      then sl ← resliceTo (Orders child) (S i); Some (naive, setOrders child sl)
      else Some (puntOrders q naive child)
    | dsq.OrderByFunction _ => Some (puntOrders q naive child)
    end
  end.

Definition puntFilters q (naive child : Query) : Query * Query :=
  let naive := setFilters naive (Filters q) in
  let child := setFilters child nilSlice in
  let naive := setOffset naive (Offset q) in
  let child := setOffset child 0 in
  let naive := setLimit naive (Limit q) in
  let child := setLimit child 0 in
  (naive, child).

(** The loop over the slice [rng] (the value of [child.Filters] when the
    loop began), with [n] elements to go from index [i]. *)
Fixpoint filtersLoop d q (rng : Slice) (n i : nat) h
    (naive child : Query) : option (Heap * (Query * Query)) :=
  let conv := keytransform.ConvertKey (keytransform.KeyTransform_ d) in
  match n with
  | O => Some (h, (naive, child))
  | S n' =>
    f ← indexFilters h rng i;
    match f with
    | FilterValueCompare _ _ | FilterValueComparePtr _ =>
      filtersLoop d q rng n' (S i) h naive child
    | FilterKeyCompare op k =>
      h ← storeFilter h (Filters child) i (FilterKeyCompare op (conv k));
      filtersLoop d q rng n' (S i) h naive child
    | FilterKeyComparePtr p =>
      match h !! p with
      | Some (ObjKeyCompare op k) =>
        let '(h, p') := new h (ObjKeyCompare op (conv k)) in
        h ← storeFilter h (Filters child) i (FilterKeyComparePtr p');
        filtersLoop d q rng n' (S i) h naive child
      | _ => None
      end
    | FilterKeyPrefix p =>
      h ← storeFilter h (Filters child) i (FilterKeyPrefix (conv p));
      filtersLoop d q rng n' (S i) h naive child
    | FilterKeyPrefixPtr p =>
      match h !! p with
      | Some (ObjKeyPrefix k) =>
        let '(h, p') := new h (ObjKeyPrefix (conv k)) in
        h ← storeFilter h (Filters child) i (FilterKeyPrefixPtr p');
        filtersLoop d q rng n' (S i) h naive child
      | _ => None
      end
    | FilterFunc _ => Some (h, puntFilters q naive child)
    end
  end.

(** Returns the heap it leaves and [(naive, child)], or panics ([None]). *)
Definition prepareQuery d h q : option (Heap * (Query * Query)) :=
  let conv := keytransform.ConvertKey (keytransform.KeyTransform_ d) in
  let naive := zeroQuery in
  let child := q in
  let child := setPrefix child (conv (Clean (Prefix child))) in
  let child := setRange child dsq.zeroRange in
  let child :=
    match dsq.Start (Range_ child) with
    | Some start =>
      setRange child (dsq.setStart (Range_ child) (Some (conv start)))
    | None => child
    end in
  let child :=
    match dsq.End_ (Range_ child) with
    | Some e => setRange child (dsq.setEnd (Range_ child) (Some (conv e)))
    | None => child
    end in
  '(naive, child) ←
    ordersLoop (keytransform.orderPreserving d) h q (Orders child)
      (len (Orders child)) 0 naive child;
  '(h, copy) ← appendToNil h (Filters child);
  let child := setFilters child copy in
  filtersLoop d q (Filters child) (len (Filters child)) 0 h naive child.

End Methods.

(** *** What a heap query means *)

(** The filter an interface value stands for. *)
Definition resolve (h : Heap) (f : Filter) : option dsq.Filter :=
  match f with
  | FilterValueCompare op v => Some (dsq.FilterValueCompare op v)
  | FilterValueComparePtr p =>
    match h !! p with
    | Some (ObjValueCompare op v) => Some (dsq.FilterValueComparePtr op v)
    | _ => None
    end
  | FilterKeyCompare op k => Some (dsq.FilterKeyCompare op k)
  | FilterKeyComparePtr p =>
    match h !! p with
    | Some (ObjKeyCompare op k) => Some (dsq.FilterKeyComparePtr op k)
    | _ => None
    end
  | FilterKeyPrefix p => Some (dsq.FilterKeyPrefix p)
  | FilterKeyPrefixPtr p =>
    match h !! p with
    | Some (ObjKeyPrefix k) => Some (dsq.FilterKeyPrefixPtr k)
    | _ => None
    end
  | FilterFunc f => Some (dsq.FilterFunc f)
  end.

(** The query a heap query stands for, when its slices and pointers are
    valid. *)
Definition viewFilters (h : Heap) (sl : Slice) : option (list dsq.Filter) :=
  fs ← readFilters h sl; mapM (resolve h) fs.

Definition view (h : Heap) (q : Query) : option dsq.Query :=
  os ← readOrders h (Orders q);
  fs ← viewFilters h (Filters q);
  Some (dsq.mkQuery (Prefix q) (Range_ q) os fs (Offset q) (Limit q)).

(** From [h] to [h'] every object but the array at [l] is kept, and [l]
    still holds an array of filters. *)
Definition stable (l : loc) (h h' : Heap) : Prop :=
  (∃ a, h' !! l = Some (ArrFilters a))
  ∧ ∀ l' o, l' ≠ l → h !! l' = Some o → h' !! l' = Some o.

(** A heap query stands for [p] in everything but its filters. *)
Definition outline (h : Heap) (m : Query) (p : dsq.Query) : Prop :=
  readOrders h (Orders m) = Some (dsq.Orders p)
  ∧ Prefix m = dsq.Prefix p ∧ Range_ m = dsq.Range_ p
  ∧ Offset m = dsq.Offset p ∧ Limit m = dsq.Limit p.

(** What the loop over the filters keeps of its surroundings while it
    rewrites the array at [l]: the query, the naive query and, but for its
    filters, the child query stand for [pq], [pnaive] and [pchild]. *)
Definition surroundings (l : loc) (h : Heap) (q naive child : Query)
    (pq pnaive pchild : dsq.Query) : Prop :=
  readOrders h (Orders child) = Some (dsq.Orders pchild)
  ∧ Prefix child = dsq.Prefix pchild ∧ Range_ child = dsq.Range_ pchild
  ∧ Offset child = dsq.Offset pchild ∧ Limit child = dsq.Limit pchild
  ∧ view h naive = Some pnaive ∧ array (Filters naive) ≠ Some l
  ∧ view h q = Some pq ∧ array (Filters q) ≠ Some l.

End mem.


(** ** Vocabulary of the properties *)
Module plan.

(** An order by value, ascending or descending. *)
Definition byValue (o : dsq.Order) : bool :=
  match o with
  | dsq.OrderByValue | dsq.OrderByValuePtr
  | dsq.OrderByValueDescending | dsq.OrderByValueDescendingPtr => true
  | _ => false
  end.

(** An order by key, ascending or descending. *)
Definition byKey (o : dsq.Order) : bool :=
  match o with
  | dsq.OrderByKey | dsq.OrderByKeyPtr
  | dsq.OrderByKeyDescending | dsq.OrderByKeyDescendingPtr => true
  | _ => false
  end.

(** A filter of one of the three kinds of the query package. *)
Definition recognized (f : dsq.Filter) : bool :=
  match f with
  | dsq.FilterFunc _ => false
  | _ => true
  end.

(** A key-compare filter. *)
Definition keyCompare (f : dsq.Filter) : bool :=
  match f with
  | dsq.FilterKeyCompare _ _ | dsq.FilterKeyComparePtr _ _ => true
  | _ => false
  end.

(** A filter as the child gets it: the key it embeds goes through [conv],
    the rest stays. *)
Definition rewriteFilter (conv : key.Key -> key.Key) (f : dsq.Filter) : dsq.Filter :=
  match f with
  | dsq.FilterKeyCompare op k => dsq.FilterKeyCompare op (conv k)
  | dsq.FilterKeyComparePtr op k => dsq.FilterKeyComparePtr op (conv k)
  | dsq.FilterKeyPrefix p => dsq.FilterKeyPrefix (conv p)
  | dsq.FilterKeyPrefixPtr p => dsq.FilterKeyPrefixPtr (conv p)
  | f => f
  end.

(** The order at index [i] forces the fallback of the orders: the scan
    reaches it (only orders by value come before it) and cannot delegate
    it (it is by key under a transform that does not preserve order, or of
    an unknown kind). *)
Definition forcesOrders (op : bool) (os : list dsq.Order) (i : nat) : Prop :=
  ∃ o, os !! i = Some o
       ∧ (byKey o = true ∧ op = false ∨ byValue o = false ∧ byKey o = false)
       ∧ ∀ j o', (j < i)%nat → os !! j = Some o' → byValue o' = true.

(** The filter at index [i] forces the fallback of the filters. *)
Definition forcesFilters (fs : list dsq.Filter) (i : nat) : Prop :=
  ∃ f, fs !! i = Some f ∧ recognized f = false.

(** Every concern of the query can be delegated: no order and no filter
    forces a fallback. *)
Definition delegable (op : bool) (q : dsq.Query) : Prop :=
  (∀ i, ¬ forcesOrders op (dsq.Orders q) i)
  ∧ (∀ i, ¬ forcesFilters (dsq.Filters q) i).

(** A three-way comparison that orders its arguments, up to ties. *)
Definition weakOrder {A : Type} (c : A → A → comparison) : Prop :=
  (∀ a b, c a b = CompOpp (c b a))
  ∧ (∀ a b z, c a b = Lt → c b z = Lt → c a z = Lt)
  ∧ (∀ a b z, c a b = Eq → c a z = c b z).

(** What the stream of [Query] shows of a result of the child: the key
    inverted when the result carries no error, the result itself when it
    carries one. *)
Definition shown (invert : key.Key -> key.Key) (r : dsq.Result) : dsq.Result :=
  match dsq.Error r with
  | None =>
    dsq.mkResult
      (dsq.mkEntry (invert (dsq.Key (dsq.Entry_ r))) (dsq.Value (dsq.Entry_ r))
         (dsq.Size (dsq.Entry_ r)))
      None
  | Some _ => r
  end.

(** The shape of every split: the child's orders are [childOrders] unless
    the orders were punted, its filters are the rewritten filters unless the
    filters were punted, and offset and limit stay with the child unless
    something was punted. *)
Definition split (conv Clean : key.Key -> key.Key) (q : dsq.Query)
    (childOrders : list dsq.Order) (ordersPunted filtersPunted : bool)
    : dsq.Query * dsq.Query :=
  let punted := ordersPunted || filtersPunted in
  (dsq.mkQuery "" dsq.zeroRange
     (if ordersPunted then dsq.Orders q else [])
     (if filtersPunted then dsq.Filters q else [])
     (if punted then dsq.Offset q else 0)
     (if punted then dsq.Limit q else 0),
   dsq.mkQuery (conv (Clean (dsq.Prefix q))) dsq.zeroRange
     (if ordersPunted then [] else childOrders)
     (if filtersPunted then [] else map (rewriteFilter conv) (dsq.Filters q))
     (if punted then 0 else dsq.Offset q)
     (if punted then 0 else dsq.Limit q)).

End plan.


(** ** Inputs of the examples *)
Module examples.

(** The keys of the examples are in canonical form: cleaning them changes
    nothing. *)
Definition cleaned (k : key.Key) : key.Key := k.

(** A store wrapped under the prefix [/ns]. *)
Definition prefixed : keytransform.Datastore (list dsq.Entry) :=
  keytransform.mkDatastore _ memstore.store (keytransform.PrefixTransform "/ns").

(** A transform that is its own inverse and does not preserve the order of
    keys: it exchanges [/a] and [/b]. *)
Definition exchange (k : key.Key) : key.Key :=
  if String.eqb k "/a" then "/b" else if String.eqb k "/b" then "/a" else k.

(** A store wrapped under this transform. *)
Definition exchanged : keytransform.Datastore (list dsq.Entry) :=
  keytransform.mkDatastore _ memstore.store
    (keytransform.mkKeyTransform exchange exchange keytransform.TOther).

(** A transform that is its own inverse and does not keep the prefixes of
    keys: it exchanges [/a/x] and [/b]. *)
Definition displace (k : key.Key) : key.Key :=
  if String.eqb k "/a/x" then "/b" else if String.eqb k "/b" then "/a/x" else k.

(** Everything under [/a]. *)
Definition underA : dsq.Query := dsq.mkQuery "/a" dsq.zeroRange [] [] 0 0.

(** A filter and an order of kinds the query package does not have. *)
Definition accept : dsq.Filter := dsq.FilterFunc (fun _ => true).
Definition bySize : dsq.Order :=
  dsq.OrderByFunction (fun a b => Z.compare (dsq.Size a) (dsq.Size b)).

(** A query with both bounds of its range. *)
Definition ranged : dsq.Query :=
  dsq.mkQuery "/" (dsq.mkRange (Some "/b") (Some "/d")) [] [] 0 0.

(** Ordered by value, then by key, then by value descending; with the
    three kinds of filters, an offset and a limit. *)
Definition sorted : dsq.Query :=
  dsq.mkQuery "/" dsq.zeroRange
    [dsq.OrderByValue; dsq.OrderByKeyDescending; dsq.OrderByValueDescending]
    [dsq.FilterKeyPrefix "/a"; dsq.FilterValueCompare dsq.NotEqual [];
     dsq.FilterKeyComparePtr dsq.LessThan "/b"]
    2 5.

(** Ordered by key, with a filter of an unknown kind and a limit. *)
Definition customFiltered : dsq.Query :=
  dsq.mkQuery "/" dsq.zeroRange [dsq.OrderByKey] [accept] 0 5.

(** Ordered by an order of an unknown kind, then by key. *)
Definition customOrdered : dsq.Query :=
  dsq.mkQuery "/" dsq.zeroRange [bySize; dsq.OrderByKey] [] 0 0.

(** Everything under the root. *)
Definition plain : dsq.Query := dsq.mkQuery "/" dsq.zeroRange [] [] 0 0.

(** Ordered by key. *)
Definition keyOrdered : dsq.Query :=
  dsq.mkQuery "" dsq.zeroRange [dsq.OrderByKey] [] 0 0.

(** Ordered by value only, with an offset and a limit. *)
Definition paged : dsq.Query :=
  dsq.mkQuery "/" dsq.zeroRange [dsq.OrderByValue] [] 3 5.

(** Keys after [/a]. *)
Definition afterA : dsq.Query :=
  dsq.mkQuery "" dsq.zeroRange [] [dsq.FilterKeyCompare dsq.GreaterThan "/a"] 0 0.

(** The contents of a small store and of a larger one. *)
Definition contents : list dsq.Entry :=
  [memstore.entry "/a" ["x"%byte]; memstore.entry "/c" []; memstore.entry "/b" ["y"%byte]].

Definition library : list dsq.Entry :=
  [memstore.entry "/a/3" ["m"%byte]; memstore.entry "/a/1" ["z"%byte];
   memstore.entry "/b/1" ["a"%byte]; memstore.entry "/a/2" ["m"%byte];
   memstore.entry "/a/5" []; memstore.entry "/a/4" ["a"%byte];
   memstore.entry "/a" ["k"%byte]; memstore.entry "/a/0" ["m"%byte]].

(** A heap with the backing arrays of a caller's slices: three orders at
    1, of which the caller's slice shows two; four filters at 2, of which
    the caller's slice shows the last three; and at 3 the struct the second
    of them points to. *)
Definition heap : mem.Heap :=
  <[1%positive := mem.ArrOrders [dsq.OrderByValue; dsq.OrderByKey; dsq.OrderByValue]]>
  (<[2%positive := mem.ArrFilters
                     [mem.FilterFunc (fun _ => false); mem.FilterKeyPrefix "/a";
                      mem.FilterKeyComparePtr 3%positive;
                      mem.FilterValueCompare dsq.NotEqual []]]>
   (<[3%positive := mem.ObjKeyCompare dsq.LessThan "/b"]> ∅)).

(** The caller's query on this heap. *)
Definition heapQuery : mem.Query :=
  mem.mkQuery "/" dsq.zeroRange
    (mem.mkSlice (Some 1%positive) 0 2 3)
    (mem.mkSlice (Some 2%positive) 1 3 3)
    2 5.

(** The query [heapQuery] stands for. *)
Definition heapView : dsq.Query :=
  dsq.mkQuery "/" dsq.zeroRange
    [dsq.OrderByValue; dsq.OrderByKey]
    [dsq.FilterKeyPrefix "/a"; dsq.FilterKeyComparePtr dsq.LessThan "/b";
     dsq.FilterValueCompare dsq.NotEqual []]
    2 5.

(** Ordered by value, then by key descending: the second to the fourth of
    the entries under [/a] that have a value and come before [/b]. *)
Definition page : dsq.Query :=
  dsq.mkQuery "/" dsq.zeroRange
    [dsq.OrderByValue; dsq.OrderByKeyDescending; dsq.OrderByValueDescending]
    [dsq.FilterKeyPrefix "/a"; dsq.FilterValueCompare dsq.NotEqual [];
     dsq.FilterKeyComparePtr dsq.LessThan "/b"]
    1 3.

End examples.


(** * Properties of the query planner *)


Section PrepareQueryFacts.
Context {W : Type} (Clean : key.Key -> key.Key).
Implicit Types (d : keytransform.Datastore W) (q naive child : dsq.Query).

Local Abbreviation allByValue := (Forall (λ o, plan.byValue o = true)).
Local Abbreviation allRecognized := (Forall (λ f, plan.recognized f = true)).
Local Abbreviation conv d := (keytransform.ConvertKey (keytransform.KeyTransform_ d)).

Lemma setFilters_same child : dsq.setFilters child (dsq.Filters child) = child.
Proof. by destruct child. Qed.

Lemma ordersLoop_cases op q i rest naive child :
  (allByValue rest
   ∧ keytransform.ordersLoop op q i rest naive child = (naive, child))
  ∨ (∃ pre o post, rest = pre ++ o :: post ∧ allByValue pre
       ∧ plan.byKey o = true ∧ op = true
       ∧ keytransform.ordersLoop op q i rest naive child
         = (naive, dsq.setOrders child (take (S (i + length pre)) (dsq.Orders child))))
  ∨ (∃ pre o post, rest = pre ++ o :: post ∧ allByValue pre
       ∧ (plan.byKey o = true ∧ op = false
          ∨ plan.byValue o = false ∧ plan.byKey o = false)
       ∧ keytransform.ordersLoop op q i rest naive child
         = keytransform.puntOrders q naive child).
Proof.
  revert i. induction rest as [|o rest IH]; intros i.
  { left. by split. }
  assert (Hval : plan.byValue o = true →
    keytransform.ordersLoop op q i (o :: rest) naive child
    = keytransform.ordersLoop op q (S i) rest naive child).
  { by destruct o. }
  assert (Hkey : plan.byKey o = true →
    keytransform.ordersLoop op q i (o :: rest) naive child
    = if op then (naive, dsq.setOrders child (take (S i) (dsq.Orders child)))
      else keytransform.puntOrders q naive child).
  { by destruct o. }
  assert (Hother : plan.byValue o = false → plan.byKey o = false →
    keytransform.ordersLoop op q i (o :: rest) naive child
    = keytransform.puntOrders q naive child).
  { by destruct o. }
  destruct (plan.byValue o) eqn:Ev.
  - rewrite Hval by done.
    destruct (IH (S i)) as [[Hall Heq]|[(pre & o' & post & -> & Hpre & Hk & Hop & Heq)
                                       |(pre & o' & post & -> & Hpre & Hk & Heq)]].
    + left. split; [by constructor|done].
    + right; left. exists (o :: pre), o', post.
      repeat split; [by constructor|done|done|].
      rewrite Heq. simpl. by rewrite Nat.add_succ_r.
    + right; right. exists (o :: pre), o', post.
      repeat split; [by constructor|done|done].
  - destruct (plan.byKey o) eqn:Ek.
    + rewrite Hkey by done. destruct op.
      * right; left. exists [], o, rest. simpl. rewrite Nat.add_0_r.
        by repeat split.
      * right; right. exists [], o, rest. simpl. repeat split; auto.
    + right; right. exists [], o, rest. rewrite Hother by done.
      repeat split; auto.
Qed.

Lemma setFilters_setFilters child fs fs' :
  dsq.setFilters (dsq.setFilters child fs) fs' = dsq.setFilters child fs'.
Proof. done. Qed.

Lemma insert_middle (done rest : list dsq.Filter) f f' :
  <[length done := f']> (done ++ f :: rest) = (done ++ [f']) ++ rest.
Proof.
  rewrite insert_app_r_alt by lia. rewrite Nat.sub_diag. simpl.
  by rewrite <- app_assoc.
Qed.

Lemma filtersLoop_recognized d q i rest naive child done :
  allRecognized rest →
  dsq.Filters child = done ++ rest →
  length done = i →
  keytransform.filtersLoop d q i rest naive child
  = (naive, dsq.setFilters child (done ++ map (plan.rewriteFilter (conv d)) rest)).
Proof.
  revert i child done. induction rest as [|f rest IH]; intros i child done Hall Hfs Hlen.
  { simpl. rewrite <- Hfs. by rewrite setFilters_same. }
  inversion Hall as [|? ? Hf Hrest]; subst.
  assert (Hsame : keytransform.filtersLoop d q (S (length done)) rest naive child
    = (naive, dsq.setFilters child (done ++ f :: map (plan.rewriteFilter (conv d)) rest))).
  { rewrite (IH _ child (done ++ [f])); rewrite ?length_app; simpl;
      rewrite <- ?app_assoc; auto; lia. }
  assert (Hstep : ∀ f',
    keytransform.filtersLoop d q (S (length done)) rest naive
      (dsq.setFilters child (<[length done := f']> (dsq.Filters child)))
    = (naive, dsq.setFilters child (done ++ f' :: map (plan.rewriteFilter (conv d)) rest))).
  { intros f'. rewrite Hfs, insert_middle.
    rewrite (IH _ _ (done ++ [f'])); rewrite ?length_app; simpl; auto; try lia.
    by rewrite setFilters_setFilters, <- app_assoc. }
  destruct f; simpl in Hf |- *; try discriminate; auto.
Qed.

Lemma puntFilters_setFilters q naive child fs :
  keytransform.puntFilters q naive (dsq.setFilters child fs)
  = keytransform.puntFilters q naive child.
Proof. done. Qed.

Lemma filtersLoop_unknown d q i rest naive child :
  Exists (λ f, plan.recognized f = false) rest →
  keytransform.filtersLoop d q i rest naive child
  = keytransform.puntFilters q naive child.
Proof.
  revert i child. induction rest as [|f rest IH]; intros i child Hex.
  { inversion Hex. }
  destruct f; simpl;
    try (rewrite IH; [by rewrite ?puntFilters_setFilters
                     |by inversion Hex; subst; [discriminate|]]).
  done.
Qed.

(** The planner, step by step. *)
Lemma prepareQuery_unfold d q :
  keytransform.prepareQuery Clean d q
  = let child := dsq.mkQuery (conv d (Clean (dsq.Prefix q))) dsq.zeroRange
                   (dsq.Orders q) (dsq.Filters q) (dsq.Offset q) (dsq.Limit q) in
    let '(naive, child) :=
      keytransform.ordersLoop (keytransform.orderPreserving d) q 0 (dsq.Orders q)
        dsq.zeroQuery child in
    keytransform.filtersLoop d q 0 (dsq.Filters child) naive child.
Proof.
  unfold keytransform.prepareQuery. simpl.
  destruct keytransform.ordersLoop as [naive child]. by rewrite setFilters_same.
Qed.


Lemma ordersLoop_frame op q i rest naive child :
  let nc := keytransform.ordersLoop op q i rest naive child in
  dsq.Prefix nc.1 = dsq.Prefix naive ∧ dsq.Range_ nc.1 = dsq.Range_ naive
  ∧ dsq.Filters nc.1 = dsq.Filters naive
  ∧ dsq.Prefix nc.2 = dsq.Prefix child ∧ dsq.Range_ nc.2 = dsq.Range_ child
  ∧ dsq.Filters nc.2 = dsq.Filters child.
Proof.
  destruct (ordersLoop_cases op q i rest naive child)
    as [[_ ->]|[(?&?&?&_&_&_&_& ->)|(?&?&?&_&_&_& ->)]]; by simpl.
Qed.

Lemma filtersLoop_frame d q i rest naive child done :
  dsq.Filters child = done ++ rest →
  length done = i →
  let nc := keytransform.filtersLoop d q i rest naive child in
  dsq.Prefix nc.1 = dsq.Prefix naive ∧ dsq.Range_ nc.1 = dsq.Range_ naive
  ∧ dsq.Orders nc.1 = dsq.Orders naive
  ∧ dsq.Prefix nc.2 = dsq.Prefix child ∧ dsq.Range_ nc.2 = dsq.Range_ child
  ∧ dsq.Orders nc.2 = dsq.Orders child.
Proof.
  intros Hfs Hlen nc. subst nc.
  destruct (decide (allRecognized rest)) as [Hall|Hex].
  - by rewrite (filtersLoop_recognized _ _ _ _ _ _ done).
  - apply not_Forall_Exists in Hex; [|intros f; apply _].
    rewrite filtersLoop_unknown; [done|].
    eapply Exists_impl; [exact Hex|]. simpl. intros f Hf. by destruct (plan.recognized f).
Qed.

(** The range of both queries of the split is the zero range, whatever
    the range of the query. *)
Lemma prepareQuery_range_zero d q :
  dsq.Range_ (keytransform.prepareQuery Clean d q).1 = dsq.zeroRange
  ∧ dsq.Range_ (keytransform.prepareQuery Clean d q).2 = dsq.zeroRange.
Proof.
  rewrite prepareQuery_unfold. cbv zeta.
  pose proof (ordersLoop_frame (keytransform.orderPreserving d) q 0 (dsq.Orders q)
    dsq.zeroQuery
    (dsq.mkQuery (conv d (Clean (dsq.Prefix q))) dsq.zeroRange
       (dsq.Orders q) (dsq.Filters q) (dsq.Offset q) (dsq.Limit q))) as Ho.
  destruct keytransform.ordersLoop as [naive child]. simpl in Ho.
  destruct Ho as (_ & Hn & _ & _ & Hc & _).
  pose proof (filtersLoop_frame d q 0 (dsq.Filters child) naive child [] eq_refl eq_refl)
    as Hf.
  simpl in Hf. destruct Hf as (_ & Hn' & _ & _ & Hc' & _).
  split; congruence.
Qed.


Lemma lookup_middle {A} (pre post : list A) (x : A) :
  (pre ++ x :: post) !! length pre = Some x.
Proof. by rewrite list_lookup_middle. Qed.

Lemma allByValue_lookup (pre post : list dsq.Order) o j o' :
  allByValue pre → (j < length pre)%nat → (pre ++ o :: post) !! j = Some o' →
  plan.byValue o' = true.
Proof.
  intros Hall Hj Hl. rewrite lookup_app_l in Hl by done.
  by eapply (proj1 (Forall_lookup _ _) Hall).
Qed.

(** Every split has the shape [plan.split], with the orders kept,
    truncated after the first order by key, or punted, and the filters
    rewritten or punted. *)
Lemma prepareQuery_plan d q :
  ∃ childOrders ordersPunted filtersPunted,
    keytransform.prepareQuery Clean d q
    = plan.split (conv d) Clean q childOrders ordersPunted filtersPunted
    ∧ ((ordersPunted = false
        ∧ ((allByValue (dsq.Orders q) ∧ childOrders = dsq.Orders q)
           ∨ (∃ i o, dsq.Orders q !! i = Some o ∧ plan.byKey o = true
                ∧ keytransform.orderPreserving d = true
                ∧ (∀ j o', (j < i)%nat → dsq.Orders q !! j = Some o' →
                           plan.byValue o' = true)
                ∧ childOrders = take (S i) (dsq.Orders q))))
       ∨ (ordersPunted = true
          ∧ ∃ i, plan.forcesOrders (keytransform.orderPreserving d) (dsq.Orders q) i))
    ∧ ((filtersPunted = false ∧ allRecognized (dsq.Filters q))
       ∨ (filtersPunted = true ∧ ∃ i, plan.forcesFilters (dsq.Filters q) i)).
Proof.
  rewrite prepareQuery_unfold. cbv zeta.
  set (c0 := dsq.mkQuery _ _ _ _ _ _).
  assert (Hfilters : ∀ naive child, dsq.Filters child = dsq.Filters q →
    (allRecognized (dsq.Filters q)
     ∧ keytransform.filtersLoop d q 0 (dsq.Filters child) naive child
       = (naive, dsq.setFilters child (map (plan.rewriteFilter (conv d)) (dsq.Filters q))))
    ∨ ((∃ i, plan.forcesFilters (dsq.Filters q) i)
       ∧ keytransform.filtersLoop d q 0 (dsq.Filters child) naive child
         = keytransform.puntFilters q naive child)).
  { intros naive child Hfs. rewrite Hfs.
    destruct (decide (allRecognized (dsq.Filters q))) as [Hall|Hex].
    - left. split; [done|].
      by rewrite (filtersLoop_recognized _ _ _ _ _ _ []).
    - right. apply not_Forall_Exists in Hex; [|intros f; apply _].
      assert (Hex' : Exists (λ f, plan.recognized f = false) (dsq.Filters q)).
      { eapply Exists_impl; [exact Hex|]. simpl. intros f Hf.
        by destruct (plan.recognized f). }
      split; [|by apply filtersLoop_unknown].
      apply Exists_exists in Hex' as (f & Hin & Hf).
      apply list_elem_of_lookup in Hin as [i Hi]. exists i, f. by split. }
  destruct (ordersLoop_cases (keytransform.orderPreserving d) q 0 (dsq.Orders q)
              dsq.zeroQuery c0)
    as [[Hall ->]|[(pre & o & post & Hos & Hpre & Hk & Hop & ->)
                  |(pre & o & post & Hos & Hpre & Hk & ->)]].
  - destruct (Hfilters dsq.zeroQuery c0 eq_refl) as [[Hrec ->]|[Hforce ->]].
    + exists (dsq.Orders q), false, false. split; [done|]. split; [left|left]; auto.
    + exists (dsq.Orders q), false, true. split; [done|]. split; [left|right]; auto.
  - set (c1 := dsq.setOrders c0 _).
    assert (Hfirst : ∃ i o, dsq.Orders q !! i = Some o ∧ plan.byKey o = true
                ∧ keytransform.orderPreserving d = true
                ∧ (∀ j o', (j < i)%nat → dsq.Orders q !! j = Some o' →
                           plan.byValue o' = true)
                ∧ take (S (0 + length pre)) (dsq.Orders q) = take (S i) (dsq.Orders q)).
    { exists (length pre), o. rewrite Hos. split; [apply lookup_middle|].
      repeat split; auto. intros j o' Hj Hl. by eapply allByValue_lookup. }
    destruct (Hfilters dsq.zeroQuery c1 eq_refl) as [[Hrec ->]|[Hforce ->]].
    + exists (take (S (0 + length pre)) (dsq.Orders q)), false, false.
      split; [done|]. split; [left; split; [done|right]|left]; auto.
    + exists (take (S (0 + length pre)) (dsq.Orders q)), false, true.
      split; [done|]. split; [left; split; [done|right]|right]; auto.
  - assert (Hforce : ∃ i, plan.forcesOrders (keytransform.orderPreserving d)
                            (dsq.Orders q) i).
    { exists (length pre), o. rewrite Hos. split; [apply lookup_middle|].
      split; [done|]. intros j o' Hj Hl. by eapply allByValue_lookup. }
    destruct (keytransform.puntOrders q dsq.zeroQuery c0) as [n1 c1] eqn:Hp.
    injection Hp as <- <-.
    destruct (Hfilters (dsq.setLimit (dsq.setOffset
                (dsq.setOrders dsq.zeroQuery (dsq.Orders q)) (dsq.Offset q)) (dsq.Limit q))
                (dsq.setLimit (dsq.setOffset (dsq.setOrders c0 []) 0) 0) eq_refl)
      as [[Hrec ->]|[Hforce' ->]].
    + exists [], true, false. split; [done|]. split; [right|left]; auto.
    + exists [], true, true. split; [done|]. split; [right|right]; auto.
Qed.

End PrepareQueryFacts.

(** ** The claims on the planner *)
Section PrepareQueryClaims.
Context {W : Type} (Clean : key.Key -> key.Key).
Implicit Types (d : keytransform.Datastore W) (q naive child : dsq.Query).

Local Abbreviation allByValue := (Forall (λ o, plan.byValue o = true)).
Local Abbreviation allRecognized := (Forall (λ f, plan.recognized f = true)).
Local Abbreviation conv d := (keytransform.ConvertKey (keytransform.KeyTransform_ d)).

Lemma byKey_not_byValue o : plan.byKey o = true → plan.byValue o = false.
Proof. by destruct o. Qed.

Lemma forcesOrders_not_byValue op os i :
  plan.forcesOrders op os i → ¬ allByValue os.
Proof.
  intros (o & Hl & Hk & _) Hall.
  pose proof (proj1 (Forall_lookup _ _) Hall i o Hl) as Hv. simpl in Hv.
  destruct Hk as [[Hk _]|[Hk _]]; [apply byKey_not_byValue in Hk|]; congruence.
Qed.

Lemma forcesFilters_not_recognized fs i :
  plan.forcesFilters fs i → ¬ allRecognized fs.
Proof.
  intros (f & Hl & Hf) Hall.
  pose proof (proj1 (Forall_lookup _ _) Hall i f Hl) as Hv. simpl in Hv. congruence.
Qed.

(** Two scans of the same orders stop at the same index. *)
Lemma first_stop_unique (os : list dsq.Order) i i' o o' :
  os !! i = Some o → plan.byValue o = false →
  (∀ j x, (j < i)%nat → os !! j = Some x → plan.byValue x = true) →
  os !! i' = Some o' → plan.byValue o' = false →
  (∀ j x, (j < i')%nat → os !! j = Some x → plan.byValue x = true) →
  i = i'.
Proof.
  intros Hl Hv Hb Hl' Hv' Hb'.
  destruct (lt_eq_lt_dec i i') as [[Hlt| ->]|Hlt]; [|done|].
  - pose proof (Hb' i o Hlt Hl). congruence.
  - pose proof (Hb i' o' Hlt Hl'). congruence.
Qed.

(** C3, as amended.  For a query with an order by key, the first one at
    index [i]: under the order-preserving PrefixTransform, when only orders
    by value come before index [i], the child's orders are the orders of
    the query up to index [i] inclusive and the naive query has no orders,
    and when moreover all filters are of recognized kinds the naive query
    has offset and limit zero; under a transform that is not
    order-preserving, the naive query has all the orders of the query and
    the child has no orders, offset zero and limit zero. *)
Theorem prepareQuery_key_order_gating d q i o :
  dsq.Orders q !! i = Some o →
  plan.byKey o = true →
  (∀ j o', (j < i)%nat → dsq.Orders q !! j = Some o' → plan.byKey o' = false) →
  let naive := (keytransform.prepareQuery Clean d q).1 in
  let child := (keytransform.prepareQuery Clean d q).2 in
  (keytransform.orderPreserving d = true →
   (∀ j o', (j < i)%nat → dsq.Orders q !! j = Some o' → plan.byValue o' = true) →
   dsq.Orders child = take (S i) (dsq.Orders q)
   ∧ dsq.Orders naive = []
   ∧ (allRecognized (dsq.Filters q) → dsq.Offset naive = 0 ∧ dsq.Limit naive = 0))
  ∧ (keytransform.orderPreserving d = false →
     dsq.Orders naive = dsq.Orders q
     ∧ dsq.Orders child = []
     ∧ dsq.Offset child = 0 ∧ dsq.Limit child = 0).
Proof.
  intros Hl Hk Hfirst naive child. subst naive child.
  pose proof (byKey_not_byValue _ Hk) as Hv.
  destruct (prepareQuery_plan Clean d q) as (co & po & pf & -> & Ho & Hf).
  destruct Ho as [[-> [[Hall _]|(i' & o' & Hl' & Hk' & Hop & Hb' & ->)]]|[-> [i' Hforce]]].
  - pose proof (proj1 (Forall_lookup _ _) Hall i o Hl) as Hv'. simpl in Hv'. congruence.
  - split; [|congruence]. intros _ Hb.
    assert (i = i') as <-.
    { eapply first_stop_unique; eauto using byKey_not_byValue. }
    simpl. split; [done|]. split; [done|].
    intros Hrec. destruct Hf as [[-> _]|[_ [k Hforce]]]; [done|].
    by apply forcesFilters_not_recognized in Hforce.
  - split.
    + intros Hop Hb. exfalso.
      destruct Hforce as (o' & Hl' & Hcase & Hb').
      assert (plan.byValue o' = false) as Hv'.
      { destruct Hcase as [[Hk' _]|[? _]]; [by apply byKey_not_byValue|done]. }
      assert (i = i') as <- by (eapply first_stop_unique; eauto).
      destruct Hcase as [[_ ?]|[_ ?]]; congruence.
    + intros _. simpl. by destruct pf.
Qed.

(** C4.  When the order at index [i] or the filter at index [i] forces a
    fallback, offset and limit are zero on the child and are those of the
    query on the naive query; the orders (the filters) of the query are
    those of the naive query and the child has none, when it is an order (a
    filter) that forces the fallback. *)
Theorem prepareQuery_fallback_complete d q i :
  plan.forcesOrders (keytransform.orderPreserving d) (dsq.Orders q) i
  ∨ plan.forcesFilters (dsq.Filters q) i →
  let naive := (keytransform.prepareQuery Clean d q).1 in
  let child := (keytransform.prepareQuery Clean d q).2 in
  dsq.Offset child = 0 ∧ dsq.Limit child = 0
  ∧ dsq.Offset naive = dsq.Offset q ∧ dsq.Limit naive = dsq.Limit q
  ∧ (plan.forcesOrders (keytransform.orderPreserving d) (dsq.Orders q) i →
     dsq.Orders naive = dsq.Orders q ∧ dsq.Orders child = [])
  ∧ (plan.forcesFilters (dsq.Filters q) i →
     dsq.Filters naive = dsq.Filters q ∧ dsq.Filters child = []).
Proof.
  intros Hforce naive child. subst naive child.
  destruct (prepareQuery_plan Clean d q) as (co & po & pf & -> & Ho & Hf).
  assert (HO : plan.forcesOrders (keytransform.orderPreserving d) (dsq.Orders q) i →
               po = true).
  { intros HfO.
    destruct Ho as [[-> [[Hall _]|(i' & o' & Hl' & Hk' & Hop & Hb' & _)]]|[-> _]];
      [| |done]; exfalso.
    - by eapply forcesOrders_not_byValue.
    - destruct HfO as (o & Hl & Hcase & Hb).
      assert (plan.byValue o = false) as Hv.
      { destruct Hcase as [[Hk _]|[? _]]; [by apply byKey_not_byValue|done]. }
      assert (i = i') as <-.
      { eapply first_stop_unique; eauto using byKey_not_byValue. }
      destruct Hcase as [[_ ?]|[_ ?]]; congruence. }
  assert (HF : plan.forcesFilters (dsq.Filters q) i → pf = true).
  { intros HfF. destruct Hf as [[_ Hall]|[-> _]]; [|done].
    by apply forcesFilters_not_recognized in HfF. }
  assert (po || pf = true) as Hp.
  { destruct Hforce as [H|H]; [rewrite (HO H)|rewrite (HF H)]; by destruct po, pf. }
  simpl. rewrite Hp. do 4 (split; [done|]).
  split; [intros HfO; by rewrite (HO HfO)|intros HfF; by rewrite (HF HfF)].
Qed.

(** C5.  For a query whose filters are all of recognized kinds, the child
    has as many filters as the query, and at every index a key-prefix
    filter of the query is, in the child, the key-prefix filter of the
    converted prefix, a key-compare filter is the key-compare filter of the
    same operator and the converted key, and a value-compare filter is
    itself; a filter held by pointer is held by pointer in the child. *)
Theorem prepareQuery_filters_rewritten d q :
  allRecognized (dsq.Filters q) →
  let child := (keytransform.prepareQuery Clean d q).2 in
  length (dsq.Filters child) = length (dsq.Filters q)
  ∧ ∀ i,
      (∀ p, dsq.Filters q !! i = Some (dsq.FilterKeyPrefix p) →
            dsq.Filters child !! i = Some (dsq.FilterKeyPrefix (conv d p)))
      ∧ (∀ p, dsq.Filters q !! i = Some (dsq.FilterKeyPrefixPtr p) →
              dsq.Filters child !! i = Some (dsq.FilterKeyPrefixPtr (conv d p)))
      ∧ (∀ op k, dsq.Filters q !! i = Some (dsq.FilterKeyCompare op k) →
                 dsq.Filters child !! i = Some (dsq.FilterKeyCompare op (conv d k)))
      ∧ (∀ op k, dsq.Filters q !! i = Some (dsq.FilterKeyComparePtr op k) →
                 dsq.Filters child !! i = Some (dsq.FilterKeyComparePtr op (conv d k)))
      ∧ (∀ op v, dsq.Filters q !! i = Some (dsq.FilterValueCompare op v) →
                 dsq.Filters child !! i = Some (dsq.FilterValueCompare op v))
      ∧ (∀ op v, dsq.Filters q !! i = Some (dsq.FilterValueComparePtr op v) →
                 dsq.Filters child !! i = Some (dsq.FilterValueComparePtr op v)).
Proof.
  intros Hall child. subst child.
  destruct (prepareQuery_plan Clean d q) as (co & po & pf & -> & _ & Hf).
  destruct Hf as [[-> _]|[_ [k Hforce]]];
    [|by apply forcesFilters_not_recognized in Hforce].
  simpl. split; [by rewrite length_map|].
  intros i. repeat split; intros; rewrite list_lookup_fmap;
    match goal with H : _ !! _ = Some _ |- _ => by rewrite H end.
Qed.

(** C8, as amended.  The child query starts as a copy of the query and the
    naive query starts as the zero query: the naive query always has the
    zero prefix and the zero range, and for a query whose concerns are all
    delegable it is the zero query (no orders, no filters, offset and limit
    zero), while the child has the offset and the limit of the query. *)
Theorem prepareQuery_naive_starts_zero d q :
  let naive := (keytransform.prepareQuery Clean d q).1 in
  let child := (keytransform.prepareQuery Clean d q).2 in
  dsq.Prefix naive = dsq.Prefix dsq.zeroQuery
  ∧ dsq.Range_ naive = dsq.Range_ dsq.zeroQuery
  ∧ (plan.delegable (keytransform.orderPreserving d) q →
     naive = dsq.zeroQuery
     ∧ dsq.Offset child = dsq.Offset q ∧ dsq.Limit child = dsq.Limit q).
Proof.
  intros naive child. subst naive child.
  destruct (prepareQuery_plan Clean d q) as (co & po & pf & -> & Ho & Hf).
  simpl. split; [done|]. split; [done|].
  intros [HnO HnF].
  destruct Ho as [[-> _]|[_ [i Hforce]]]; [|by apply HnO in Hforce].
  destruct Hf as [[-> _]|[_ [i Hforce]]]; [|by apply HnF in Hforce].
  done.
Qed.

End PrepareQueryClaims.

(** ** The planner on the examples *)

Lemma delegable_by_value (op : bool) (q : dsq.Query) :
  Forall (λ o, plan.byValue o = true) (dsq.Orders q) →
  Forall (λ f, plan.recognized f = true) (dsq.Filters q) →
  plan.delegable op q.
Proof.
  intros HO HF. split; intros i Hforce.
  - by eapply forcesOrders_not_byValue.
  - by eapply forcesFilters_not_recognized.
Qed.

(** C2, where the code departs from it.  On a query with both bounds of
    its range, under the prefix [/ns], the naive query has the zero range
    and the child query has the zero range too, not the range of the
    converted bounds. *)
Theorem prepareQuery_range_not_delegated :
  let split :=
    keytransform.prepareQuery examples.cleaned examples.prefixed examples.ranged in
  dsq.Range_ examples.ranged = dsq.mkRange (Some "/b") (Some "/d")
  ∧ dsq.Range_ split.1 = dsq.zeroRange
  ∧ dsq.Range_ split.2 = dsq.zeroRange
  ∧ dsq.Range_ split.2 ≠ dsq.mkRange (Some "/ns/b") (Some "/ns/d").
Proof. vm_compute. by repeat split. Qed.

Lemma prepareQuery_key_order_gating_witness :
  let preserved :=
    keytransform.prepareQuery examples.cleaned examples.prefixed examples.sorted in
  let scrambled :=
    keytransform.prepareQuery examples.cleaned examples.exchanged examples.sorted in
  (dsq.Orders preserved.2 = [dsq.OrderByValue; dsq.OrderByKeyDescending]
   ∧ dsq.Orders preserved.1 = []
   ∧ dsq.Offset preserved.1 = 0 ∧ dsq.Limit preserved.1 = 0)
  ∧ (dsq.Orders scrambled.1 = dsq.Orders examples.sorted
     ∧ dsq.Orders scrambled.2 = []
     ∧ dsq.Offset scrambled.2 = 0 ∧ dsq.Limit scrambled.2 = 0).
Proof.
  assert (Hfirst : ∀ j o', (j < 1)%nat → dsq.Orders examples.sorted !! j = Some o' →
                           plan.byKey o' = false ∧ plan.byValue o' = true).
  { intros [|j] o' Hj Hl; [|lia]. injection Hl as <-. by split. }
  split.
  - destruct (prepareQuery_key_order_gating examples.cleaned examples.prefixed
                examples.sorted 1 dsq.OrderByKeyDescending) as [Hop _].
    + reflexivity.
    + reflexivity.
    + intros j o' Hj Hl. by destruct (Hfirst j o' Hj Hl).
    + destruct Hop as (Hc & Hn & Hrest).
      * reflexivity.
      * intros j o' Hj Hl. by destruct (Hfirst j o' Hj Hl).
      * destruct Hrest as [Hoff Hlim]; [by repeat constructor|].
        by repeat split.
  - destruct (prepareQuery_key_order_gating examples.cleaned examples.exchanged
                examples.sorted 1 dsq.OrderByKeyDescending) as [_ Hnop].
    + reflexivity.
    + reflexivity.
    + intros j o' Hj Hl. by destruct (Hfirst j o' Hj Hl).
    + by apply Hnop.
Defined.

(** C3 as stated fails twice under the PrefixTransform: a filter of an
    unknown kind leaves the limit with the naive query, and an order of an
    unknown kind before the order by key leaves all orders with the naive
    query. *)
Lemma prepareQuery_key_order_counterexample :
  ¬ (∀ (d : keytransform.Datastore (list dsq.Entry)) q i o,
       dsq.Orders q !! i = Some o → plan.byKey o = true →
       (∀ j o', (j < i)%nat → dsq.Orders q !! j = Some o' → plan.byKey o' = false) →
       keytransform.orderPreserving d = true →
       dsq.Offset (keytransform.prepareQuery examples.cleaned d q).1 = 0
       ∧ dsq.Limit (keytransform.prepareQuery examples.cleaned d q).1 = 0)
  ∧ ¬ (∀ (d : keytransform.Datastore (list dsq.Entry)) q i o,
         dsq.Orders q !! i = Some o → plan.byKey o = true →
         (∀ j o', (j < i)%nat → dsq.Orders q !! j = Some o' → plan.byKey o' = false) →
         keytransform.orderPreserving d = true →
         dsq.Orders (keytransform.prepareQuery examples.cleaned d q).2
         = take (S i) (dsq.Orders q)
         ∧ dsq.Orders (keytransform.prepareQuery examples.cleaned d q).1 = []).
Proof.
  split; intros Hclaim.
  - destruct (Hclaim examples.prefixed examples.customFiltered 0%nat dsq.OrderByKey)
      as [_ Hlim]; try reflexivity.
    + intros j o' Hj. lia.
    + vm_compute in Hlim. discriminate.
  - destruct (Hclaim examples.prefixed examples.customOrdered 1%nat dsq.OrderByKey)
      as [_ Hnaive]; try reflexivity.
    + intros [|j] o' Hj Hl; [|lia]. by injection Hl as <-.
    + vm_compute in Hnaive. discriminate.
Qed.

Lemma prepareQuery_fallback_complete_witness :
  let split :=
    keytransform.prepareQuery examples.cleaned examples.exchanged
      examples.customFiltered in
  dsq.Offset split.2 = 0 ∧ dsq.Limit split.2 = 0
  ∧ dsq.Offset split.1 = 0 ∧ dsq.Limit split.1 = 5
  ∧ dsq.Orders split.1 = [dsq.OrderByKey] ∧ dsq.Orders split.2 = []
  ∧ dsq.Filters split.1 = [examples.accept] ∧ dsq.Filters split.2 = [].
Proof.
  assert (HO : plan.forcesOrders (keytransform.orderPreserving examples.exchanged)
                 (dsq.Orders examples.customFiltered) 0).
  { exists dsq.OrderByKey. split; [reflexivity|]. split; [by left|].
    intros j o' Hj. lia. }
  assert (HF : plan.forcesFilters (dsq.Filters examples.customFiltered) 0).
  { exists examples.accept. by split. }
  destruct (prepareQuery_fallback_complete examples.cleaned examples.exchanged
              examples.customFiltered 0 (or_introl HO))
    as (Hco & Hcl & Hno & Hnl & Hord & Hfil).
  destruct (Hord HO) as [Hord1 Hord2]. destruct (Hfil HF) as [Hfil1 Hfil2].
  by repeat split.
Defined.

Lemma prepareQuery_filters_rewritten_witness :
  let child :=
    (keytransform.prepareQuery examples.cleaned examples.prefixed examples.sorted).2 in
  length (dsq.Filters child) = 3%nat
  ∧ dsq.Filters child !! 0%nat = Some (dsq.FilterKeyPrefix "/ns/a")
  ∧ dsq.Filters child !! 1%nat = Some (dsq.FilterValueCompare dsq.NotEqual [])
  ∧ dsq.Filters child !! 2%nat = Some (dsq.FilterKeyComparePtr dsq.LessThan "/ns/b").
Proof.
  destruct (prepareQuery_filters_rewritten examples.cleaned examples.prefixed
              examples.sorted) as [Hlen Hat].
  { by repeat constructor. }
  split; [exact Hlen|].
  split; [|split].
  - by apply (Hat 0%nat).
  - by apply (Hat 1%nat).
  - by apply (Hat 2%nat).
Defined.

Lemma prepareQuery_naive_starts_zero_witness :
  let split :=
    keytransform.prepareQuery examples.cleaned examples.prefixed examples.paged in
  split.1 = dsq.zeroQuery ∧ dsq.Offset split.2 = 3 ∧ dsq.Limit split.2 = 5.
Proof.
  destruct (prepareQuery_naive_starts_zero examples.cleaned examples.prefixed
              examples.paged) as (_ & _ & Hdel).
  apply Hdel. apply delegable_by_value; by repeat constructor.
Defined.

(** C8 as stated fails: on a query ordered by value, with offset 3 and
    limit 5, all of it delegable, the naive query does not have the orders,
    the offset and the limit of the query. *)
Lemma prepareQuery_naive_copy_counterexample :
  ¬ (∀ (d : keytransform.Datastore (list dsq.Entry)) q,
       plan.delegable (keytransform.orderPreserving d) q →
       dsq.Orders (keytransform.prepareQuery examples.cleaned d q).1 = dsq.Orders q
       ∧ dsq.Offset (keytransform.prepareQuery examples.cleaned d q).1 = dsq.Offset q
       ∧ dsq.Limit (keytransform.prepareQuery examples.cleaned d q).1 = dsq.Limit q).
Proof.
  intros Hclaim.
  destruct (Hclaim examples.prefixed examples.paged) as (_ & Hoff & _).
  - apply delegable_by_value; by repeat constructor.
  - vm_compute in Hoff. discriminate.
Qed.

(** * Point operations, result streams and batches *)

Lemma lookup_map {A B} (g : A → B) (l : list A) (i : nat) :
  map g l !! i = g <$> l !! i.
Proof. revert i. induction l as [|x l IH]; intros [|i]; simpl; auto. Qed.
Section Delegation.
Context {W : Type} (Clean : key.Key -> key.Key).
Implicit Types (d : keytransform.Datastore W) (q : dsq.Query) (s : W).

Local Abbreviation conv d := (keytransform.ConvertKey (keytransform.KeyTransform_ d)).
Local Abbreviation inv d := (keytransform.InvertKey (keytransform.KeyTransform_ d)).

(** C6.  Each of Put, Get, Has, GetSize, Delete and Sync is the same
    operation of the child, from the same state and with the same context
    and value, on the converted key; what the child returns (result, error
    and state) is what the operation returns. *)
Theorem point_operations_delegate d (ctx : Context) (k : key.Key)
    (value : list byte) s :
  keytransform.Put d ctx k value s
  = ds.Put (keytransform.child d) ctx (conv d k) value s
  ∧ keytransform.Get d ctx k s = ds.Get (keytransform.child d) ctx (conv d k) s
  ∧ keytransform.Has d ctx k s = ds.Has (keytransform.child d) ctx (conv d k) s
  ∧ keytransform.GetSize d ctx k s
    = ds.GetSize (keytransform.child d) ctx (conv d k) s
  ∧ keytransform.Delete d ctx k s
    = ds.Delete (keytransform.child d) ctx (conv d k) s
  ∧ keytransform.Sync d ctx k s = ds.Sync (keytransform.child d) ctx (conv d k) s.
Proof. by repeat split. Qed.

(** One call of [Next] per result of the child and one more exhaust the
    stream, and show every result. *)
Lemma ResultsFromIterator_queryNext d q (cqr : dsq.Results) (fuel : nat) :
  (length cqr < fuel)%nat →
  dsq.ResultsFromIterator fuel q
    (dsq.mkIterator (keytransform.queryNext d) keytransform.queryClose) cqr
  = map (plan.shown (inv d)) cqr.
Proof.
  revert fuel. induction cqr as [|r cqr IH]; intros fuel Hfuel.
  - destruct fuel; [simpl in Hfuel; lia|done].
  - destruct fuel as [|fuel]; [simpl in Hfuel; lia|].
    simpl in Hfuel |- *. rewrite IH by lia. f_equal.
    unfold plan.shown, dsq.setKey. by destruct (dsq.Error r) eqn:He; [|destruct r; simplify_eq/=].
Qed.

(** When the child's query succeeds, [Query] post-processes what the
    stream shows of the child's results. *)
Lemma Query_child_succeeds d (ctx : Context) q s (cqr : dsq.Results) s' :
  ds.Query (keytransform.child d) ctx (keytransform.prepareQuery Clean d q).2 s
  = ((cqr, None), s') →
  keytransform.Query Clean d ctx q s
  = ((Some (dsq.NaiveQueryApply (keytransform.prepareQuery Clean d q).1
              (map (plan.shown (inv d)) cqr)), None), s').
Proof.
  intros Hchild. unfold keytransform.Query.
  destruct (keytransform.prepareQuery Clean d q) as [nq cq]. simpl in Hchild.
  rewrite Hchild. cbn -[dsq.ResultsFromIterator dsq.NaiveQueryApply].
  by rewrite ResultsFromIterator_queryNext by lia.
Qed.

(** C7, as amended.  When the child's query succeeds with the stream
    [cqr], the stream [qr] that [Query] builds over it and hands to the
    naive post-processor has as many results, in the same order: a result
    without error with its key inverted and its value and size unchanged, a
    result with an error unchanged.  [Query] returns this stream after the
    naive post-processing (which may filter, reorder, skip and cut it), and
    returns this very stream when the naive query is the zero query. *)
Theorem query_results_inverted d (ctx : Context) q s (cqr : dsq.Results) s'
    (fuel : nat) :
  ds.Query (keytransform.child d) ctx (keytransform.prepareQuery Clean d q).2 s
  = ((cqr, None), s') →
  (length cqr < fuel)%nat →
  let qr :=
    dsq.ResultsFromIterator fuel q
      (dsq.mkIterator (keytransform.queryNext d) keytransform.queryClose) cqr in
  length qr = length cqr
  ∧ (∀ i r, cqr !! i = Some r →
       qr !! i
       = Some match dsq.Error r with
              | None =>
                dsq.mkResult
                  (dsq.mkEntry (inv d (dsq.Key (dsq.Entry_ r)))
                     (dsq.Value (dsq.Entry_ r)) (dsq.Size (dsq.Entry_ r)))
                  None
              | Some _ => r
              end)
  ∧ keytransform.Query Clean d ctx q s
    = ((Some (dsq.NaiveQueryApply (keytransform.prepareQuery Clean d q).1 qr), None),
       s')
  ∧ ((keytransform.prepareQuery Clean d q).1 = dsq.zeroQuery →
     keytransform.Query Clean d ctx q s = ((Some qr, None), s')).
Proof.
  intros Hchild Hfuel qr. subst qr.
  rewrite ResultsFromIterator_queryNext by done.
  split; [by rewrite length_map|]. split; [|split].
  - intros i r Hr. rewrite lookup_map, Hr. done.
  - by apply Query_child_succeeds.
  - intros Hzero. rewrite (Query_child_succeeds d ctx q s cqr s' Hchild).
    by rewrite Hzero.
Qed.

(** When the child's query fails, [Query] returns its error and no stream. *)
Lemma query_error_forwarded d (ctx : Context) q s (cqr : dsq.Results) e s' :
  ds.Query (keytransform.child d) ctx (keytransform.prepareQuery Clean d q).2 s
  = ((cqr, Some e), s') →
  keytransform.Query Clean d ctx q s = ((None, Some e), s').
Proof.
  intros Hchild. unfold keytransform.Query.
  destruct (keytransform.prepareQuery Clean d q) as [nq cq]. simpl in Hchild.
  by rewrite Hchild.
Qed.

(** C10.  Without batching in the child, [Batch] returns the
    unsupported-batching error, no batch, and the state as it was.  With
    batching, when the child's [Batch] succeeds, [Batch] returns a batch
    and no error, and on this batch [Put] and [Delete] are those of the
    child's batch on the converted key and [Commit] is that of the child's
    batch; when the child's [Batch] fails, [Batch] returns its error and no
    batch. *)
Theorem batch_delegates d (ctx : Context) s :
  (ds.Batching (keytransform.child d) = None →
   keytransform.Batch d ctx s = ((None, Some ds.ErrBatchUnsupported), s))
  ∧ (∀ bds childbatch s',
       ds.Batching (keytransform.child d) = Some bds →
       bds ctx s = ((Some childbatch, None), s') →
       ∃ t, keytransform.Batch d ctx s = ((Some t, None), s')
            ∧ ∀ (ctx' : Context) (k : key.Key) (val : list byte) (s1 : W),
                keytransform.transformBatch_Put t ctx' k val s1
                = Some (ds.BatchPut childbatch ctx' (conv d k) val s1)
                ∧ keytransform.transformBatch_Delete t ctx' k s1
                  = Some (ds.BatchDelete childbatch ctx' (conv d k) s1)
                ∧ keytransform.transformBatch_Commit t ctx' s1
                  = Some (ds.Commit childbatch ctx' s1))
  ∧ (∀ bds childbatch e s',
       ds.Batching (keytransform.child d) = Some bds →
       bds ctx s = ((childbatch, Some e), s') →
       keytransform.Batch d ctx s = ((None, Some e), s')).
Proof.
  unfold keytransform.Batch. split; [|split].
  - by intros ->.
  - intros bds childbatch s' -> Hb. rewrite Hb. eexists. split; [done|].
    by intros ctx' k val s1.
  - intros bds childbatch e s' -> Hb. by rewrite Hb.
Qed.

End Delegation.

(** A child that records its calls sees one call per point operation, on
    the converted key. *)
Lemma recorder_sees_converted_key (t : keytransform.KeyTransform) (batching : bool)
    (ctx : Context) (k : key.Key) (value : list byte) (log : list recorder.Call) :
  let d := keytransform.mkDatastore _ (recorder.store batching) t in
  let k' := keytransform.ConvertKey t k in
  (keytransform.Put d ctx k value log).2 = log ++ [recorder.CallPut ctx k' value]
  ∧ (keytransform.Get d ctx k log).2 = log ++ [recorder.CallGet ctx k']
  ∧ (keytransform.Has d ctx k log).2 = log ++ [recorder.CallHas ctx k']
  ∧ (keytransform.GetSize d ctx k log).2 = log ++ [recorder.CallGetSize ctx k']
  ∧ (keytransform.Delete d ctx k log).2 = log ++ [recorder.CallDelete ctx k']
  ∧ (keytransform.Sync d ctx k log).2 = log ++ [recorder.CallSync ctx k'].
Proof. by repeat split. Qed.

Lemma query_results_inverted_witness :
  let failed := dsq.mkResult (dsq.mkEntry "/ns/b" [] 0) (Some (errorString "lost")) in
  keytransform.Query examples.cleaned examples.prefixed 0%nat examples.plain
    [memstore.entry "/ns/a" []]
  = ((Some [dsq.mkResult (memstore.entry "/a" []) None], None),
     [memstore.entry "/ns/a" []])
  ∧ dsq.ResultsFromIterator 3 examples.plain
      (dsq.mkIterator (keytransform.queryNext examples.prefixed)
         keytransform.queryClose)
      [dsq.mkResult (memstore.entry "/ns/a" []) None; failed]
    = [dsq.mkResult (memstore.entry "/a" []) None; failed].
Proof.
  split.
  - destruct (query_results_inverted examples.cleaned examples.prefixed 0%nat
                examples.plain [memstore.entry "/ns/a" []]
                [dsq.mkResult (memstore.entry "/ns/a" []) None]
                [memstore.entry "/ns/a" []] 2) as (_ & _ & _ & Hq).
    + reflexivity.
    + simpl. lia.
    + apply Hq. reflexivity.
  - reflexivity.
Defined.

(** C7 as stated fails: under the transform that exchanges [/a] and [/b],
    the child yields [/a] then [/b], which the stream shows as [/b] then
    [/a]; the query is ordered by key, the order is left to the naive
    post-processor, and [Query] returns [/a] then [/b]. *)
Lemma query_results_counterexample :
  ¬ (∀ (d : keytransform.Datastore (list dsq.Entry)) (q : dsq.Query)
       (s : list dsq.Entry) (cqr : dsq.Results) (s' : list dsq.Entry),
       ds.Query (keytransform.child d) 0%nat
         (keytransform.prepareQuery examples.cleaned d q).2 s
       = ((cqr, None), s') →
       keytransform.Query examples.cleaned d 0%nat q s
       = ((Some (map (plan.shown (keytransform.InvertKey (keytransform.KeyTransform_ d)))
                   cqr), None), s')).
Proof.
  intros Hclaim.
  specialize (Hclaim examples.exchanged examples.keyOrdered
                [memstore.entry "/a" []; memstore.entry "/b" []]
                [dsq.mkResult (memstore.entry "/a" []) None;
                 dsq.mkResult (memstore.entry "/b" []) None]
                [memstore.entry "/a" []; memstore.entry "/b" []] eq_refl).
  vm_compute in Hclaim. discriminate.
Qed.

Lemma batch_delegates_witness :
  let t := keytransform.PrefixTransform "/ns" in
  keytransform.Batch (keytransform.mkDatastore _ (recorder.store false) t) 7%nat []
  = ((None, Some ds.ErrBatchUnsupported), [])
  ∧ ∃ b, keytransform.Batch (keytransform.mkDatastore _ (recorder.store true) t) 7%nat []
         = ((Some b, None), [recorder.CallBatch 7%nat])
         ∧ keytransform.transformBatch_Put b 8%nat "/a" [] [recorder.CallBatch 7%nat]
           = Some (None, [recorder.CallBatch 7%nat; recorder.CallBatchPut 8%nat "/ns/a" []]).
Proof.
  intros t. split.
  - by apply (batch_delegates (keytransform.mkDatastore _ (recorder.store false) t)).
  - destruct (batch_delegates (keytransform.mkDatastore _ (recorder.store true) t)
                7%nat []) as (_ & Hok & _).
    destruct (Hok _ recorder.batch [recorder.CallBatch 7%nat] eq_refl eq_refl)
      as (b & Hb & Hops).
    exists b. split; [exact Hb|].
    destruct (Hops 8%nat "/a" [] [recorder.CallBatch 7%nat]) as (Hput & _).
    exact Hput.
Defined.

(** * The stable sort *)
Section Sorting.
Context {A : Type}.
Implicit Types (le : A → A → bool) (l : list A) (x : A).

Lemma elem_of_insertBy le x l y : y ∈ dsq.insertBy le x l ↔ y = x ∨ y ∈ l.
Proof.
  induction l as [|z l IH]; simpl.
  - rewrite list_elem_of_singleton, elem_of_nil. tauto.
  - destruct (le x z); rewrite !elem_of_cons; [tauto|]. rewrite IH. tauto.
Qed.

Lemma elem_of_sortBy le l y : y ∈ dsq.sortBy le l ↔ y ∈ l.
Proof.
  induction l as [|x l IH]; simpl; [done|].
  rewrite elem_of_insertBy, IH, elem_of_cons. tauto.
Qed.

Lemma Forall_sortBy (P : A → Prop) le l : Forall P l → Forall P (dsq.sortBy le l).
Proof.
  rewrite !Forall_forall. intros HP y Hy. apply HP. by apply elem_of_sortBy in Hy.
Qed.

(** Sorting depends on the comparisons between the elements only. *)
Lemma insertBy_agree le le' x l :
  (∀ y, y ∈ l → le x y = le' x y) → dsq.insertBy le x l = dsq.insertBy le' x l.
Proof.
  induction l as [|z l IH]; intros Hagree; simpl; [done|].
  rewrite <- (Hagree z) by apply list_elem_of_here. destruct (le x z); [done|].
  f_equal. apply IH. intros y Hy. apply Hagree. by apply list_elem_of_further.
Qed.

Lemma sortBy_agree {K} (key : A → K) le le' l :
  NoDup (map key l) →
  (∀ a b, key a ≠ key b → le a b = le' a b) →
  dsq.sortBy le l = dsq.sortBy le' l.
Proof.
  intros Hnd Hagree. induction l as [|x l IH]; simpl; [done|].
  simpl in Hnd. apply NoDup_cons in Hnd as [Hx Hnd].
  rewrite <- IH by done. apply insertBy_agree.
  intros y Hy. apply elem_of_sortBy in Hy. apply Hagree.
  intros Heq. apply Hx. rewrite Heq. apply list_elem_of_In, in_map.
  by apply list_elem_of_In.
Qed.

(** Sorting commutes with a map that keeps the comparisons. *)
Lemma sortBy_map {B} (g : A → B) le (le' : B → B → bool) l :
  (∀ a b, le' (g a) (g b) = le a b) →
  dsq.sortBy le' (map g l) = map g (dsq.sortBy le l).
Proof.
  intros Hg. induction l as [|x l IH]; simpl; [done|]. rewrite IH.
  generalize (dsq.sortBy le l). intros m.
  induction m as [|z m IHm]; simpl; [done|].
  rewrite Hg. destruct (le x z); simpl; [done|]. by rewrite IHm.
Qed.

(** Under a total and transitive comparison the result is sorted, and
    filtering commutes with sorting. *)
Section Preorder.
Variable le : A → A → bool.
Hypothesis le_total : ∀ a b, le a b = false → le b a = true.
Hypothesis le_trans : ∀ a b c, le a b = true → le b c = true → le a c = true.

Lemma insertBy_head x l :
  (∀ y, y ∈ l → le x y = true) → dsq.insertBy le x l = x :: l.
Proof. destruct l as [|z l]; simpl; [done|]. intros H. by rewrite H by apply list_elem_of_here. Qed.

Lemma sortBy_sorted l : StronglySorted (λ a b, le a b = true) (dsq.sortBy le l).
Proof.
  induction l as [|x l IH]; simpl; [constructor|].
  induction IH as [|z m Hm IHm Hz]; simpl; [repeat constructor|].
  destruct (le x z) eqn:Hxz.
  - constructor; [by constructor|]. constructor; [done|].
    eapply Forall_impl; [exact Hz|]. simpl. eauto.
  - constructor; [done|]. rewrite Forall_forall. intros y Hy.
    apply elem_of_insertBy in Hy as [->|Hy]; [by apply le_total|].
    by apply (proj1 (Forall_forall _ _) Hz).
Qed.

Lemma filter_insertBy (P : A → bool) x l :
  StronglySorted (λ a b, le a b = true) l →
  List.filter P (dsq.insertBy le x l)
  = if P x then dsq.insertBy le x (List.filter P l) else List.filter P l.
Proof.
  induction 1 as [|z m Hm IH Hz]; simpl.
  { by destruct (P x). }
  destruct (le x z) eqn:Hxz; simpl.
  - destruct (P x) eqn:Px; [|done]. destruct (P z) eqn:Pz; simpl.
    + by rewrite Hxz.
    + symmetry. apply insertBy_head. intros y Hy.
      apply list_elem_of_In, filter_In in Hy as [Hy _]. apply list_elem_of_In in Hy.
      apply (le_trans _ z); [done|]. by apply (proj1 (Forall_forall _ _) Hz).
  - rewrite IH. destruct (P z) eqn:Pz; destruct (P x) eqn:Px; simpl; try done.
    by rewrite Hxz.
Qed.

Lemma filter_sortBy (P : A → bool) l :
  List.filter P (dsq.sortBy le l) = dsq.sortBy le (List.filter P l).
Proof.
  induction l as [|x l IH]; simpl; [done|].
  rewrite filter_insertBy by apply sortBy_sorted. rewrite IH.
  by destruct (P x).
Qed.

End Preorder.
End Sorting.

(** * The comparisons of keys, values and orders *)

Lemma ascii_compare_refl (a : Ascii.ascii) : Ascii.compare a a = Eq.
Proof. apply N.compare_refl. Qed.

Lemma ascii_compare_lt_trans (a b c : Ascii.ascii) :
  Ascii.compare a b = Lt → Ascii.compare b c = Lt → Ascii.compare a c = Lt.
Proof.
  unfold Ascii.compare. rewrite !N.compare_lt_iff. apply N.lt_trans.
Qed.

Lemma string_compare_refl (s : string) : String.compare s s = Eq.
Proof. induction s as [|a s IH]; simpl; [done|]. by rewrite ascii_compare_refl. Qed.

Lemma string_compare_lt_trans (a b c : string) :
  String.compare a b = Lt → String.compare b c = Lt → String.compare a c = Lt.
Proof.
  revert b c. induction a as [|x a IH]; intros [|y b] [|z c]; simpl; try done.
  destruct (Ascii.compare x y) eqn:Hxy; try done.
  - apply Ascii.compare_eq_iff in Hxy as ->.
    destruct (Ascii.compare y z); try done. apply IH.
  - intros _. destruct (Ascii.compare y z) eqn:Hyz; try done.
    + apply Ascii.compare_eq_iff in Hyz as <-. by rewrite Hxy.
    + intros _. by rewrite (ascii_compare_lt_trans x y z).
Qed.

(** Comparing through a projection into strings is a weak order. *)
Lemma weakOrder_string {A} (proj : A → string) :
  plan.weakOrder (λ a b, String.compare (proj a) (proj b)).
Proof.
  split; [|split].
  - intros a b. apply String.compare_antisym.
  - intros a b z. apply string_compare_lt_trans.
  - intros a b z Heq. apply String.compare_eq_iff in Heq. by rewrite Heq.
Qed.

Lemma weakOrder_opp {A} (c : A → A → comparison) :
  plan.weakOrder c → plan.weakOrder (λ a b, CompOpp (c a b)).
Proof.
  intros (Hanti & Htrans & Hcong). split; [|split].
  - intros a b. by rewrite (Hanti a b).
  - intros a b z Hab Hbz.
    assert (c z b = Lt) as Hzb.
    { rewrite (Hanti z b). by destruct (c b z). }
    assert (c b a = Lt) as Hba.
    { rewrite (Hanti b a). by destruct (c a b). }
    rewrite (Hanti a z), (Htrans z b a Hzb Hba). done.
  - intros a b z Hab. rewrite (Hcong a b z); [done|]. by destruct (c a b).
Qed.

Lemma weakOrder_lex {A} (c1 c2 : A → A → comparison) :
  plan.weakOrder c1 → plan.weakOrder c2 →
  plan.weakOrder (λ a b, match c1 a b with Eq => c2 a b | r => r end).
Proof.
  intros (Hanti1 & Htrans1 & Hcong1) (Hanti2 & Htrans2 & Hcong2).
  assert (Hsym1 : ∀ a b, c1 a b = Eq → c1 b a = Eq).
  { intros a b Hab. rewrite (Hanti1 b a), Hab. done. }
  split; [|split].
  - intros a b. rewrite (Hanti1 a b), (Hanti2 a b). by destruct (c1 b a).
  - intros a b z.
    destruct (c1 a b) eqn:Hab; try done.
    + rewrite (Hcong1 a b z Hab). destruct (c1 b z); try done. apply Htrans2.
    + intros _. destruct (c1 b z) eqn:Hbz; try done.
      * intros _. rewrite (Hanti1 a z), (Hcong1 z b a (Hsym1 _ _ Hbz)).
        rewrite (Hanti1 b a), Hab. done.
      * intros _. by rewrite (Htrans1 a b z).
  - intros a b z. destruct (c1 a b) eqn:Hab; try done.
    intros Hab2. rewrite (Hcong1 a b z Hab). destruct (c1 b z); try done.
    by apply Hcong2.
Qed.

Lemma weakOrder_orderCompare (o : dsq.Order) :
  plan.byValue o = true ∨ plan.byKey o = true → plan.weakOrder (dsq.orderCompare o).
Proof.
  intros Hkind.
  pose proof (weakOrder_string dsq.Key) as HK.
  pose proof (weakOrder_string (λ e, String.string_of_list_byte (dsq.Value e))) as HV.
  destruct o; simpl in Hkind; try (by destruct Hkind);
    first [exact HK | exact HV | exact (weakOrder_opp _ HK) | exact (weakOrder_opp _ HV)].
Qed.

Lemma weakOrder_compareOrders (os : list dsq.Order) :
  Forall (λ o, plan.byValue o = true ∨ plan.byKey o = true) os →
  plan.weakOrder (dsq.compareOrders os).
Proof.
  induction 1 as [|o os Ho Hos IH]; simpl.
  - by repeat split.
  - apply (weakOrder_lex (dsq.orderCompare o) (dsq.compareOrders os));
      [by apply weakOrder_orderCompare|done].
Qed.

Lemma notAfter_total (os : list dsq.Order) (a b : dsq.Result) :
  plan.weakOrder (dsq.compareOrders os) →
  dsq.notAfter os a b = false → dsq.notAfter os b a = true.
Proof.
  intros (Hanti & _ & _). unfold dsq.notAfter.
  rewrite (Hanti (dsq.Entry_ b) (dsq.Entry_ a)).
  by destruct (dsq.compareOrders os (dsq.Entry_ a) (dsq.Entry_ b)).
Qed.

Lemma notAfter_trans (os : list dsq.Order) (a b c : dsq.Result) :
  plan.weakOrder (dsq.compareOrders os) →
  dsq.notAfter os a b = true → dsq.notAfter os b c = true →
  dsq.notAfter os a c = true.
Proof.
  intros (Hanti & Htrans & Hcong). unfold dsq.notAfter.
  destruct (dsq.compareOrders os (dsq.Entry_ a) (dsq.Entry_ b)) eqn:Hab;
    try done; intros _.
  - by rewrite (Hcong _ _ (dsq.Entry_ c) Hab).
  - destruct (dsq.compareOrders os (dsq.Entry_ b) (dsq.Entry_ c)) eqn:Hbc;
      try done; intros _.
    + assert (dsq.compareOrders os (dsq.Entry_ c) (dsq.Entry_ b) = Eq) as Hcb.
      { by rewrite Hanti, Hbc. }
      rewrite Hanti, (Hcong _ _ (dsq.Entry_ a) Hcb), Hanti, Hab. done.
    + by rewrite (Htrans _ _ _ Hab Hbc).
Qed.

(** * The split query against the query itself *)

Lemma filter_map_commute {A B} (g : A → B) (P : A → bool) (P' : B → bool) (l : list A) :
  (∀ x, P' (g x) = P x) → List.filter P' (map g l) = map g (List.filter P l).
Proof.
  intros HP. induction l as [|x l IH]; simpl; [done|].
  rewrite HP. destruct (P x); simpl; by rewrite IH.
Qed.

Lemma NoDup_map_filter {A K} (key : A → K) (P : A → bool) (l : list A) :
  NoDup (map key l) → NoDup (map key (List.filter P l)).
Proof.
  induction l as [|x l IH]; simpl; [done|].
  rewrite NoDup_cons. intros [Hx Hnd]. destruct (P x); simpl; [|by apply IH].
  apply NoDup_cons. split; [|by apply IH].
  intros Hin. apply Hx. apply list_elem_of_In, in_map_iff in Hin as (y & Hy & Hin).
  apply filter_In in Hin as [Hin _].
  apply list_elem_of_In, in_map_iff. eauto.
Qed.

Lemma Forall_filter_bool {A} (Q : A → Prop) (P : A → bool) (l : list A) :
  Forall Q l → Forall Q (List.filter P l).
Proof.
  rewrite !Forall_forall. intros HQ x Hx. apply HQ.
  apply list_elem_of_In, filter_In in Hx as [Hx _]. by apply list_elem_of_In.
Qed.

(** The post-processor with nothing to do. *)
Lemma NaiveQueryApply_zero (rs : dsq.Results) : dsq.NaiveQueryApply dsq.zeroQuery rs = rs.
Proof. done. Qed.

Lemma NaiveFilters_NoDup (fs : list dsq.Filter) (rs : dsq.Results) :
  NoDup (map (λ r, dsq.Key (dsq.Entry_ r)) rs) →
  NoDup (map (λ r, dsq.Key (dsq.Entry_ r)) (fold_left dsq.NaiveFilter fs rs)).
Proof.
  revert rs. induction fs as [|f fs IH]; intros rs Hnd; simpl; [done|].
  apply IH. by apply NoDup_map_filter.
Qed.

Lemma NaiveFilters_Forall (Q : dsq.Result → Prop) (fs : list dsq.Filter) (rs : dsq.Results) :
  Forall Q rs → Forall Q (fold_left dsq.NaiveFilter fs rs).
Proof.
  revert rs. induction fs as [|f fs IH]; intros rs HQ; simpl; [done|].
  apply IH. by apply Forall_filter_bool.
Qed.

Lemma NaiveOrder_Forall (Q : dsq.Result → Prop) (os : list dsq.Order) (rs : dsq.Results) :
  Forall Q rs → Forall Q (dsq.NaiveOrder rs os).
Proof. destruct os; [done|]. apply Forall_sortBy. Qed.

(** *** Orders after an order by key never decide *)

Lemma orderCompare_byKey_neq (o : dsq.Order) (a b : dsq.Entry) :
  plan.byKey o = true → dsq.Key a ≠ dsq.Key b → dsq.orderCompare o a b ≠ Eq.
Proof.
  intros Hk Hne Heq. apply Hne.
  destruct o; simpl in Hk, Heq; try done;
    apply String.compare_eq_iff; unfold key.Compare in Heq;
    by destruct (String.compare (dsq.Key a) (dsq.Key b)).
Qed.

Lemma compareOrders_truncate (os : list dsq.Order) (i : nat) (o : dsq.Order)
    (a b : dsq.Entry) :
  os !! i = Some o → plan.byKey o = true → dsq.Key a ≠ dsq.Key b →
  dsq.compareOrders (take (S i) os) a b = dsq.compareOrders os a b.
Proof.
  revert i. induction os as [|o' os IH]; intros [|i] Hl Hk Hne; try done.
  - simpl in Hl. injection Hl as ->. simpl.
    pose proof (orderCompare_byKey_neq o a b Hk Hne).
    by destruct (dsq.orderCompare o a b).
  - simpl in Hl. change (take (S (S i)) (o' :: os)) with (o' :: take (S i) os).
    simpl. by rewrite (IH i).
Qed.

Lemma NaiveOrder_truncate (os : list dsq.Order) (i : nat) (o : dsq.Order)
    (rs : dsq.Results) :
  os !! i = Some o → plan.byKey o = true →
  NoDup (map (λ r, dsq.Key (dsq.Entry_ r)) rs) →
  dsq.NaiveOrder rs (take (S i) os) = dsq.NaiveOrder rs os.
Proof.
  intros Hl Hk Hnd. destruct os as [|o' os]; [done|].
  change (take (S i) (o' :: os)) with (o' :: take i os).
  unfold dsq.NaiveOrder.
  apply (sortBy_agree (λ r, dsq.Key (dsq.Entry_ r))); [done|].
  intros a b Hne. unfold dsq.notAfter.
  change (o' :: take i os) with (take (S i) (o' :: os)).
  by rewrite (compareOrders_truncate _ i o).
Qed.

(** *** Filtering commutes with ordering by recognized orders *)

Lemma NaiveFilter_NaiveOrder (os : list dsq.Order) (f : dsq.Filter) (rs : dsq.Results) :
  Forall (λ o, plan.byValue o = true ∨ plan.byKey o = true) os →
  dsq.NaiveFilter (dsq.NaiveOrder rs os) f = dsq.NaiveOrder (dsq.NaiveFilter rs f) os.
Proof.
  intros Hos. destruct os as [|o os]; [done|].
  unfold dsq.NaiveFilter, dsq.NaiveOrder.
  pose proof (weakOrder_compareOrders _ Hos) as Hweak.
  apply filter_sortBy.
  - intros a b. by apply notAfter_total.
  - intros a b c. by apply notAfter_trans.
Qed.

Lemma NaiveFilters_NaiveOrder (os : list dsq.Order) (fs : list dsq.Filter)
    (rs : dsq.Results) :
  Forall (λ o, plan.byValue o = true ∨ plan.byKey o = true) os →
  fold_left dsq.NaiveFilter fs (dsq.NaiveOrder rs os)
  = dsq.NaiveOrder (fold_left dsq.NaiveFilter fs rs) os.
Proof.
  intros Hos. revert rs. induction fs as [|f fs IH]; intros rs; simpl; [done|].
  by rewrite NaiveFilter_NaiveOrder, IH.
Qed.

(** *** What a transform keeps *)
Section Transformed.
Variable t : keytransform.KeyTransform.

Local Abbreviation conv := (keytransform.ConvertKey t).
Local Abbreviation inv := (keytransform.InvertKey t).
Local Abbreviation convR := (memstore.convertResult t).
Local Abbreviation convE := (memstore.convertEntry t).
Local Abbreviation keyOf := (λ r : dsq.Result, dsq.Key (dsq.Entry_ r)).

Hypothesis roundtrip : ∀ k, inv (conv k) = k.
Hypothesis prefixes : ∀ k p, key.HasPrefix (conv k) (conv p) = key.HasPrefix k p.

Lemma scan_physical (es : list dsq.Entry) :
  dsq.scan (memstore.physical t es) = map convR (dsq.scan es).
Proof. unfold dsq.scan, memstore.physical. rewrite !map_map. done. Qed.

Lemma shown_convertResult (rs : dsq.Results) :
  Forall (λ r, dsq.Error r = None) rs →
  map (plan.shown inv) (map convR rs) = rs.
Proof.
  induction 1 as [|r rs Hr Hrs IH]; simpl; [done|]. rewrite IH. f_equal.
  destruct r as [[k v n] e]. simpl in Hr. subst e.
  unfold plan.shown. simpl. by rewrite roundtrip.
Qed.

Lemma filterEntry_rewrite (f : dsq.Filter) (e : dsq.Entry) :
  plan.recognized f = true →
  (plan.keyCompare f = true → ∀ a b, key.Compare (conv a) (conv b) = key.Compare a b) →
  dsq.filterEntry (plan.rewriteFilter conv f) (convE e) = dsq.filterEntry f e.
Proof.
  intros Hrec Hcmp. destruct f; simpl in *; try done;
    first [by rewrite Hcmp | by rewrite prefixes].
Qed.

Lemma NaiveFilters_rewrite (fs : list dsq.Filter) (rs : dsq.Results) :
  Forall (λ f, plan.recognized f = true) fs →
  (Exists (λ f, plan.keyCompare f = true) fs →
   ∀ a b, key.Compare (conv a) (conv b) = key.Compare a b) →
  fold_left dsq.NaiveFilter (map (plan.rewriteFilter conv) fs) (map convR rs)
  = map convR (fold_left dsq.NaiveFilter fs rs).
Proof.
  intros Hrec. revert rs. induction Hrec as [|f fs Hf Hfs IH]; intros rs Hcmp;
    simpl; [done|].
  unfold dsq.NaiveFilter at 2.
  rewrite (filter_map_commute convR (λ r, dsq.filterEntry f (dsq.Entry_ r))).
  - apply IH. intros Hex. apply Hcmp. by right.
  - intros r. simpl. apply filterEntry_rewrite; [done|].
    intros Hk. apply Hcmp. by left.
Qed.

Lemma compareOrders_convertEntry (os : list dsq.Order) (a b : dsq.Entry) :
  Forall (λ o, plan.byValue o = true
               ∨ plan.byKey o = true
                 ∧ ∀ x y, key.Compare (conv x) (conv y) = key.Compare x y) os →
  dsq.compareOrders os (convE a) (convE b) = dsq.compareOrders os a b.
Proof.
  induction 1 as [|o os Ho Hos IH]; simpl; [done|]. rewrite IH.
  assert (dsq.orderCompare o (convE a) (convE b) = dsq.orderCompare o a b) as ->;
    [|done].
  destruct Ho as [Hv|[Hk Hcmp]]; destruct o; simpl in *; try done; by rewrite Hcmp.
Qed.

Lemma NaiveOrder_convertResult (os : list dsq.Order) (rs : dsq.Results) :
  Forall (λ o, plan.byValue o = true
               ∨ plan.byKey o = true
                 ∧ ∀ x y, key.Compare (conv x) (conv y) = key.Compare x y) os →
  dsq.NaiveOrder (map convR rs) os = map convR (dsq.NaiveOrder rs os).
Proof.
  intros Hos. destruct os as [|o os]; [done|]. unfold dsq.NaiveOrder.
  apply sortBy_map. intros a b. unfold dsq.notAfter.
  change (dsq.Entry_ (convR a)) with (convE (dsq.Entry_ a)).
  change (dsq.Entry_ (convR b)) with (convE (dsq.Entry_ b)).
  by rewrite (compareOrders_convertEntry (o :: os)).
Qed.

Lemma NaiveOffset_convertResult (n : Z) (rs : dsq.Results) :
  dsq.NaiveOffset (map convR rs) n = map convR (dsq.NaiveOffset rs n).
Proof. unfold dsq.NaiveOffset. by rewrite skipn_map. Qed.

Lemma NaiveLimit_convertResult (n : Z) (rs : dsq.Results) :
  dsq.NaiveLimit (map convR rs) n = map convR (dsq.NaiveLimit rs n).
Proof. unfold dsq.NaiveLimit. destruct (n =? 0); [done|]. by rewrite firstn_map. Qed.

End Transformed.

(** *** The refinement *)
Section Refinement.
Variable Clean : key.Key → key.Key.

Lemma filter_inRange_zero (rs : dsq.Results) :
  List.filter (λ r, dsq.inRange dsq.zeroRange (dsq.Key (dsq.Entry_ r))) rs = rs.
Proof. induction rs as [|r rs IH]; simpl; [done|]. by rewrite IH. Qed.

Lemma scan_errors (es : list dsq.Entry) : Forall (λ r, dsq.Error r = None) (dsq.scan es).
Proof. unfold dsq.scan. apply Forall_forall. intros r Hr.
  apply list_elem_of_In, in_map_iff in Hr as (e & <- & _). done. Qed.

Lemma scan_keys (es : list dsq.Entry) :
  map (λ r, dsq.Key (dsq.Entry_ r)) (dsq.scan es) = map dsq.Key es.
Proof. unfold dsq.scan. by rewrite map_map. Qed.

Lemma NaiveOrder_nil (rs : dsq.Results) : dsq.NaiveOrder rs [] = rs.
Proof. done. Qed.

Lemma NaiveOffset_zero (rs : dsq.Results) : dsq.NaiveOffset rs 0 = rs.
Proof. done. Qed.

Lemma NaiveLimit_zero (rs : dsq.Results) : dsq.NaiveLimit rs 0 = rs.
Proof. done. Qed.

(** The kinds of the orders the child gets when the orders are not punted. *)
Lemma childOrders_kinds (op : bool) (os co : list dsq.Order) (compat : Prop) :
  (op = true → compat) →
  (Forall (λ o, plan.byValue o = true) os ∧ co = os)
  ∨ (∃ i o, os !! i = Some o ∧ plan.byKey o = true ∧ op = true
       ∧ (∀ j o', (j < i)%nat → os !! j = Some o' → plan.byValue o' = true)
       ∧ co = take (S i) os) →
  Forall (λ o, plan.byValue o = true ∨ plan.byKey o = true ∧ compat) co.
Proof.
  intros Hcompat [[Hall ->]|(i & o & Hl & Hk & Hop & Hb & ->)].
  - eapply Forall_impl; [exact Hall|]. simpl. auto.
  - apply Forall_lookup. intros j o' Hj.
    apply lookup_take_Some in Hj as [Hj Hlt].
    destruct (decide (j = i)) as [->|Hne].
    + right. rewrite Hl in Hj. injection Hj as <-. auto.
    + left. apply (Hb j o'); [lia|done].
Qed.

(** C1, as amended.  Take a transform whose [InvertKey] undoes its
    [ConvertKey], whose [ConvertKey] keeps the prefix relation between keys
    and, when it is the PrefixTransform or the query has a key-compare
    filter, keeps the order of keys; a query with the zero range and a
    prefix in canonical form; and a store whose entries have distinct
    keys.  Then [Query] on the wrapper of the store that holds the entries
    under their converted keys (the child query on the child store, every
    key inverted, the naive query applied to the stream) returns without
    error the very results, in the very order, of the query executed on the
    store that holds the entries themselves. *)
Theorem split_query_refines (t : keytransform.KeyTransform) (ctx : Context)
    (q : dsq.Query) (es : list dsq.Entry) :
  let d := keytransform.mkDatastore _ memstore.store t in
  (∀ k, keytransform.InvertKey t (keytransform.ConvertKey t k) = k) →
  (∀ k p, key.HasPrefix (keytransform.ConvertKey t k) (keytransform.ConvertKey t p)
          = key.HasPrefix k p) →
  (keytransform.orderPreserving d = true
   ∨ Exists (λ f, plan.keyCompare f = true) (dsq.Filters q) →
   ∀ a b, key.Compare (keytransform.ConvertKey t a) (keytransform.ConvertKey t b)
          = key.Compare a b) →
  dsq.Range_ q = dsq.zeroRange →
  Clean (dsq.Prefix q) = dsq.Prefix q →
  NoDup (map dsq.Key es) →
  keytransform.Query Clean d ctx q (memstore.physical t es)
  = ((Some (dsq.execute q es), None), memstore.physical t es).
Proof.
  intros d Hround Hpre Hcmp Hrange Hclean Hnd.
  set (conv := keytransform.ConvertKey t) in *.
  set (convR := memstore.convertResult t).
  rewrite (Query_child_succeeds Clean d ctx q (memstore.physical t es)
             (dsq.execute (keytransform.prepareQuery Clean d q).2
                (memstore.physical t es))
             (memstore.physical t es)) by done.
  do 3 f_equal.
  set (B := List.filter (λ r, key.HasPrefix (dsq.Key (dsq.Entry_ r)) (dsq.Prefix q))
              (dsq.scan es)).
  assert (HBerr : Forall (λ r, dsq.Error r = None) B).
  { apply Forall_filter_bool, scan_errors. }
  assert (HBnd : NoDup (map (λ r, dsq.Key (dsq.Entry_ r)) B)).
  { apply NoDup_map_filter. by rewrite scan_keys. }
  assert (Hdirect : dsq.execute q es = dsq.NaiveQueryApply q B).
  { unfold dsq.execute. by rewrite Hrange, filter_inRange_zero. }
  destruct (prepareQuery_plan Clean d q) as (co & po & pf & Hsplit & Ho & Hf).
  rewrite Hsplit, Hdirect.
  assert (Hchild : ∀ cq, dsq.Prefix cq = conv (Clean (dsq.Prefix q)) →
            dsq.Range_ cq = dsq.zeroRange →
            dsq.execute cq (memstore.physical t es)
            = dsq.NaiveQueryApply cq (map convR B)).
  { intros cq Hp Hr. unfold dsq.execute. rewrite Hp, Hr, filter_inRange_zero.
    rewrite scan_physical, Hclean. f_equal.
    apply filter_map_commute. intros r. apply Hpre. }
  rewrite Hchild by done. clear Hchild Hsplit Hdirect.
  unfold plan.split, dsq.NaiveQueryApply. cbn [fst snd dsq.Filters dsq.Orders dsq.Offset dsq.Limit].
  set (fs := dsq.Filters q). set (os := dsq.Orders q).
  set (off := dsq.Offset q). set (lim := dsq.Limit q).
  assert (Hshown : ∀ rs, Forall (λ r, dsq.Error r = None) rs →
            map (plan.shown (keytransform.InvertKey t)) (map convR rs) = rs).
  { intros rs. by apply shown_convertResult. }
  assert (HFerr : Forall (λ r, dsq.Error r = None) (fold_left dsq.NaiveFilter fs B)).
  { by apply NaiveFilters_Forall. }
  assert (HFnd : NoDup (map (λ r, dsq.Key (dsq.Entry_ r)) (fold_left dsq.NaiveFilter fs B))).
  { by apply NaiveFilters_NoDup. }
  (* the orders of the child, when they are not punted *)
  assert (Hkinds : po = false →
    Forall (λ o, plan.byValue o = true
                 ∨ plan.byKey o = true
                   ∧ ∀ x y, key.Compare (conv x) (conv y) = key.Compare x y) co
    ∧ ∀ rs, NoDup (map (λ r, dsq.Key (dsq.Entry_ r)) rs) →
            dsq.NaiveOrder rs co = dsq.NaiveOrder rs os).
  { intros ->. destruct Ho as [[_ Ho]|[? _]]; [|done]. split.
    - eapply childOrders_kinds; [|exact Ho]. intros Hop. apply Hcmp. by left.
    - intros rs Hrs. destruct Ho as [[_ ->]|(i & o & Hl & Hk & _ & _ & ->)]; [done|].
      by apply (NaiveOrder_truncate _ i o). }
  assert (Hrewrite : pf = false → ∀ rs,
    fold_left dsq.NaiveFilter (map (plan.rewriteFilter conv) fs) (map convR rs)
    = map convR (fold_left dsq.NaiveFilter fs rs)).
  { intros -> rs. destruct Hf as [[_ Hrec]|[? _]]; [|done].
    apply NaiveFilters_rewrite; [done|done|]. intros Hex. apply Hcmp. by right. }
  subst convR conv.
  destruct po, pf; cbn [orb fold_left];
    rewrite ?NaiveOrder_nil, ?NaiveOffset_zero, ?NaiveLimit_zero.
  - (* orders and filters punted *)
    by rewrite Hshown.
  - (* orders punted, filters rewritten *)
    rewrite Hrewrite by done. by rewrite Hshown.
  - (* orders delegated, filters punted *)
    destruct (Hkinds eq_refl) as [Hco Htrunc].
    rewrite NaiveOrder_convertResult by done.
    rewrite Hshown by by apply NaiveOrder_Forall.
    rewrite NaiveFilters_NaiveOrder.
    2:{ eapply Forall_impl; [exact Hco|]. simpl. tauto. }
    by rewrite Htrunc.
  - (* everything delegated *)
    destruct (Hkinds eq_refl) as [Hco Htrunc].
    rewrite Hrewrite by done.
    rewrite NaiveOrder_convertResult by done.
    rewrite NaiveOffset_convertResult, NaiveLimit_convertResult.
    rewrite Hshown.
    2:{ unfold dsq.NaiveLimit, dsq.NaiveOffset. destruct (lim =? 0);
          [|apply Forall_take]; apply Forall_drop; by apply NaiveOrder_Forall. }
    by rewrite Htrunc.
Qed.

End Refinement.

(** *** The PrefixTransform *)

Lemma prefix_roundtrip (p k : key.Key) :
  keytransform.InvertKey (keytransform.PrefixTransform p)
    (keytransform.ConvertKey (keytransform.PrefixTransform p) k) = k.
Proof.
  simpl. induction p as [|a p IH]; simpl.
  - rewrite Nat.sub_0_r. induction k as [|c k IHk]; simpl; [done|].
    destruct k; simpl in *; by rewrite ?IHk.
  - exact IH.
Qed.

Lemma prefix_keeps_prefixes (p k x : key.Key) :
  key.HasPrefix (keytransform.ConvertKey (keytransform.PrefixTransform p) k)
    (keytransform.ConvertKey (keytransform.PrefixTransform p) x)
  = key.HasPrefix k x.
Proof.
  unfold key.HasPrefix. simpl. induction p as [|a p IH]; simpl; [done|].
  by destruct (Ascii.ascii_dec a a).
Qed.

Lemma prefix_keeps_order (p a b : key.Key) :
  key.Compare (keytransform.ConvertKey (keytransform.PrefixTransform p) a)
    (keytransform.ConvertKey (keytransform.PrefixTransform p) b)
  = key.Compare a b.
Proof.
  unfold key.Compare. simpl. induction p as [|c p IH]; simpl; [done|].
  by rewrite ascii_compare_refl.
Qed.

Lemma split_query_refines_witness :
  keytransform.Query examples.cleaned examples.prefixed 0%nat examples.page
    (memstore.physical (keytransform.PrefixTransform "/ns") examples.library)
  = ((Some (dsq.execute examples.page examples.library), None),
     memstore.physical (keytransform.PrefixTransform "/ns") examples.library).
Proof.
  apply (split_query_refines examples.cleaned (keytransform.PrefixTransform "/ns")
           0%nat examples.page examples.library).
  - intros k. apply prefix_roundtrip.
  - intros k p. apply prefix_keeps_prefixes.
  - intros _ a b. apply prefix_keeps_order.
  - reflexivity.
  - reflexivity.
  - apply (bool_decide_unpack _). vm_compute. exact I.
Defined.

(** C1 as stated fails: under a transform that is its own inverse and
    exchanges [/a] and [/b], the query for the keys after [/a] finds [/b]
    in the store, and nothing through the wrapper. *)
Lemma split_query_counterexample :
  ¬ (∀ (t : keytransform.KeyTransform) (q : dsq.Query) (es : list dsq.Entry),
       (∀ k, keytransform.InvertKey t (keytransform.ConvertKey t k) = k) →
       NoDup (map dsq.Key es) →
       keytransform.Query examples.cleaned
         (keytransform.mkDatastore _ memstore.store t) 0%nat q
         (memstore.physical t es)
       = ((Some (dsq.execute q es), None), memstore.physical t es)).
Proof.
  intros Hclaim.
  specialize (Hclaim
    (keytransform.mkKeyTransform examples.exchange examples.exchange keytransform.TOther)
    examples.afterA [memstore.entry "/a" []; memstore.entry "/b" []]).
  assert (Hround : ∀ k, examples.exchange (examples.exchange k) = k).
  { intros k. unfold examples.exchange.
    destruct (String.eqb_spec k "/a") as [->|Ha]; [done|].
    destruct (String.eqb_spec k "/b") as [->|Hb]; [done|].
    by rewrite (proj2 (String.eqb_neq _ _) Ha), (proj2 (String.eqb_neq _ _) Hb). }
  specialize (Hclaim Hround).
  assert (Hnd : NoDup (map dsq.Key [memstore.entry "/a" []; memstore.entry "/b" []])).
  { apply (bool_decide_unpack _). vm_compute. exact I. }
  specialize (Hclaim Hnd). vm_compute in Hclaim. discriminate.
Qed.

(** The prefix is delegated under every transform: one that does not keep
    the prefixes of keys loses [/a/x], which it stores as [/b], from the
    query for the keys under [/a]. *)
Lemma split_query_needs_prefixes :
  let t := keytransform.mkKeyTransform examples.displace examples.displace
             keytransform.TOther in
  (keytransform.Query examples.cleaned (keytransform.mkDatastore _ memstore.store t)
     0%nat examples.underA (memstore.physical t [memstore.entry "/a/x" []])).1.1
  = Some []
  ∧ dsq.execute examples.underA [memstore.entry "/a/x" []]
    = [dsq.mkResult (memstore.entry "/a/x" []) None].
Proof. vm_compute. by split. Qed.

(** The page of the example, as the store and the wrapper both answer it. *)
Lemma page_of_library :
  dsq.execute examples.page examples.library
  = [dsq.mkResult (memstore.entry "/a" ["k"%byte]) None;
     dsq.mkResult (memstore.entry "/a/3" ["m"%byte]) None;
     dsq.mkResult (memstore.entry "/a/2" ["m"%byte]) None].
Proof. vm_compute. reflexivity. Qed.

(** Where the range is lost (see C2): the wrapper answers the ranged query
    with every entry, the store with the entries of the range. *)
Lemma query_ignores_range :
  (keytransform.Query examples.cleaned examples.prefixed 0%nat examples.ranged
     (memstore.physical (keytransform.PrefixTransform "/ns") examples.contents)).1.1
  = Some (dsq.scan examples.contents)
  ∧ dsq.execute examples.ranged examples.contents
    = [dsq.mkResult (memstore.entry "/c" []) None;
       dsq.mkResult (memstore.entry "/b" ["y"%byte]) None].
Proof. vm_compute. by split. Qed.

(** * prepareQuery on the heap: nothing the caller owns is written *)
Section HeapFacts.
Implicit Types (h : mem.Heap) (sl : mem.Slice) (l : mem.loc).

Lemma window_whole {A} (arr : option mem.loc) (a : list A) :
  mem.window (mem.mkSlice arr 0 (length a) (length a)) a = Some a.
Proof.
  unfold mem.window. simpl. rewrite decide_True by lia. by rewrite firstn_all.
Qed.

Lemma window_length {A} sl (a b : list A) : mem.window sl a = Some b → length b = mem.len sl.
Proof.
  unfold mem.window. case_decide as Hfit; [|done]. intros [= <-].
  rewrite length_take, length_drop. lia.
Qed.

(** *** Reading through a heap that keeps the objects read *)

Lemma resolve_keeps h h' (f : mem.Filter) (x : dsq.Filter) :
  (∀ l o, (∀ a, o ≠ mem.ArrFilters a) → h !! l = Some o → h' !! l = Some o) →
  mem.resolve h f = Some x → mem.resolve h' f = Some x.
Proof.
  intros Hkeep. destruct f; simpl; try done.
  all: destruct (h !! p) as [o|] eqn:Hp; [|done].
  all: destruct o; try done.
  all: apply Hkeep in Hp; [by rewrite Hp|done].
Qed.

Lemma resolve_all_keeps h h' (ms : list mem.Filter) (ps : list dsq.Filter) :
  (∀ l o, (∀ a, o ≠ mem.ArrFilters a) → h !! l = Some o → h' !! l = Some o) →
  Forall2 (λ m p, mem.resolve h m = Some p) ms ps →
  Forall2 (λ m p, mem.resolve h' m = Some p) ms ps.
Proof.
  intros Hkeep HF. eapply Forall2_impl; [exact HF|].
  intros m p. by apply resolve_keeps.
Qed.

Lemma readOrders_keeps h h' sl (os : list dsq.Order) :
  (∀ l o, (∀ a, o ≠ mem.ArrFilters a) → h !! l = Some o → h' !! l = Some o) →
  mem.readOrders h sl = Some os → mem.readOrders h' sl = Some os.
Proof.
  intros Hkeep. unfold mem.readOrders, mem.ordersArray.
  destruct (mem.array sl) as [l|]; [|done]. simpl.
  destruct (h !! l) as [o|] eqn:Hl; [|done]. destruct o; try done.
  apply Hkeep in Hl; [by rewrite Hl|done].
Qed.

Lemma readFilters_keeps h h' sl (fs : list mem.Filter) :
  (∀ l o, mem.array sl = Some l → h !! l = Some o → h' !! l = Some o) →
  mem.readFilters h sl = Some fs → mem.readFilters h' sl = Some fs.
Proof.
  intros Hkeep. unfold mem.readFilters, mem.filtersArray.
  destruct (mem.array sl) as [l|]; [|done]. simpl.
  destruct (h !! l) as [o|] eqn:Hl; [|done]. destruct o; try done.
  by rewrite (Hkeep l _ eq_refl Hl).
Qed.

Lemma viewFilters_spec h sl (ps : list dsq.Filter) :
  mem.viewFilters h sl = Some ps ↔
  ∃ ms, mem.readFilters h sl = Some ms ∧ Forall2 (λ m p, mem.resolve h m = Some p) ms ps.
Proof.
  unfold mem.viewFilters. split.
  - intros Hv. destruct (mem.readFilters h sl) as [ms|]; [|done]. simpl in Hv.
    exists ms. split; [done|]. by apply mapM_Some.
  - intros (ms & -> & Hms). simpl. by apply mapM_Some.
Qed.

Lemma view_spec h (q : mem.Query) (pq : dsq.Query) :
  mem.view h q = Some pq ↔
  mem.readOrders h (mem.Orders q) = Some (dsq.Orders pq)
  ∧ mem.viewFilters h (mem.Filters q) = Some (dsq.Filters pq)
  ∧ mem.Prefix q = dsq.Prefix pq ∧ mem.Range_ q = dsq.Range_ pq
  ∧ mem.Offset q = dsq.Offset pq ∧ mem.Limit q = dsq.Limit pq.
Proof.
  unfold mem.view. split.
  - intros Hv. destruct (mem.readOrders h (mem.Orders q)) as [os|]; [|done].
    destruct (mem.viewFilters h (mem.Filters q)) as [fs|]; [|done].
    simpl in Hv. injection Hv as <-. done.
  - intros (-> & -> & Hp & Hr & Ho & Hl). simpl. rewrite Hp, Hr, Ho, Hl.
    by destruct pq.
Qed.

Lemma subseteq_keeps h h' :
  h ⊆ h' → ∀ l o, h !! l = Some o → h' !! l = Some o.
Proof. intros Hsub l o Hl. by eapply lookup_weaken. Qed.

Lemma view_keeps h h' (q : mem.Query) (pq : dsq.Query) :
  (∀ l o, (∀ a, o ≠ mem.ArrFilters a) → h !! l = Some o → h' !! l = Some o) →
  (∀ l o, mem.array (mem.Filters q) = Some l → h !! l = Some o → h' !! l = Some o) →
  mem.view h q = Some pq → mem.view h' q = Some pq.
Proof.
  intros Hobj Harr. rewrite !view_spec.
  intros (Hos & Hfs & Hrest). split; [by eapply readOrders_keeps|]. split; [|done].
  apply viewFilters_spec in Hfs as (ms & Hms & Hres). apply viewFilters_spec.
  exists ms. split; [by eapply readFilters_keeps|by eapply resolve_all_keeps].
Qed.

Lemma stable_objects l h h' (a : list mem.Filter) :
  h !! l = Some (mem.ArrFilters a) → mem.stable l h h' →
  ∀ l' o, (∀ a, o ≠ mem.ArrFilters a) → h !! l' = Some o → h' !! l' = Some o.
Proof.
  intros Hl [_ Hkeep] l' o Ho Hl'. apply Hkeep; [|done].
  intros ->. rewrite Hl in Hl'. injection Hl' as <-. by eapply Ho.
Qed.

Lemma stable_refl l h (a : list mem.Filter) :
  h !! l = Some (mem.ArrFilters a) → mem.stable l h h.
Proof. intros Hl. split; [by exists a|done]. Qed.

Lemma stable_trans l h1 h2 h3 : mem.stable l h1 h2 → mem.stable l h2 h3 → mem.stable l h1 h3.
Proof. intros [_ H12] [Ha H23]. split; [done|]. eauto. Qed.

Lemma surroundings_stable l h h' (a : list mem.Filter) q naive child pq pnaive pchild :
  h !! l = Some (mem.ArrFilters a) → mem.stable l h h' →
  mem.surroundings l h q naive child pq pnaive pchild →
  mem.surroundings l h' q naive child pq pnaive pchild.
Proof.
  intros Hl Hst (Hos & Hp & Hr & Ho & Hlim & Hn & Hnl & Hq & Hql).
  pose proof (stable_objects l h h' a Hl Hst) as Hobj.
  assert (Harr : ∀ sl, mem.array sl ≠ Some l →
            ∀ l' o, mem.array sl = Some l' → h !! l' = Some o → h' !! l' = Some o).
  { intros sl Hne l' o Hsl Hl'. apply (proj2 Hst); [|done]. congruence. }
  repeat split; try done.
  - by eapply readOrders_keeps.
  - eapply view_keeps; eauto.
  - eapply view_keeps; eauto.
Qed.

End HeapFacts.

Section HeapLoops.
Context {W : Type} (Clean : key.Key → key.Key).
Variable d : keytransform.Datastore W.
Implicit Types (h : mem.Heap) (l : mem.loc) (q naive child : mem.Query).
Implicit Types (pq pnaive pchild : dsq.Query).

Local Abbreviation conv := (keytransform.ConvertKey (keytransform.KeyTransform_ d)).

Lemma drop_cons_inv {A} (i : nat) (xs : list A) (x : A) (rest : list A) :
  drop i xs = x :: rest → xs !! i = Some x ∧ drop (S i) xs = rest ∧ (i < length xs)%nat.
Proof.
  revert i. induction xs as [|y xs IH]; intros [|i] Hd; simpl in Hd; try done.
  - injection Hd as -> ->. simpl. split; [done|]. split; [by rewrite drop_0|lia].
  - destruct (IH i Hd) as (? & ? & ?). simpl. split; [done|]. split; [done|lia].
Qed.

Lemma readFilters_array l h (cur : list mem.Filter) :
  h !! l = Some (mem.ArrFilters cur) →
  mem.readFilters h (mem.mkSlice (Some l) 0 (length cur) (length cur)) = Some cur.
Proof.
  intros Hl. unfold mem.readFilters, mem.filtersArray. simpl. rewrite Hl. simpl.
  apply window_whole.
Qed.

Lemma storeFilter_array l h (sl : mem.Slice) (cur : list mem.Filter) (i : nat)
    (x : mem.Filter) :
  sl = mem.mkSlice (Some l) 0 (length cur) (length cur) →
  h !! l = Some (mem.ArrFilters cur) → (i < length cur)%nat →
  mem.storeFilter h sl i x = Some (<[l := mem.ArrFilters (<[i := x]> cur)]> h).
Proof.
  intros -> Hl Hi. unfold mem.storeFilter, mem.filtersArray. simpl. rewrite Hl. simpl.
  rewrite window_whole. simpl. by rewrite decide_True by done.
Qed.

Lemma surroundings_setFilters l h q naive child pq pnaive pchild fs :
  mem.surroundings l h q naive child pq pnaive pchild →
  mem.surroundings l h q naive child pq pnaive (dsq.setFilters pchild fs).
Proof. done. Qed.

(** The loop over the filters, on the heap and on lists, step by step. *)
Lemma filtersLoop_sim q pq l (rest : list dsq.Filter) :
  ∀ (i : nat) h (cur : list mem.Filter) naive child pnaive pchild,
    mem.Filters child = mem.mkSlice (Some l) 0 (length cur) (length cur) →
    h !! l = Some (mem.ArrFilters cur) →
    Forall2 (λ m p, mem.resolve h m = Some p) cur (dsq.Filters pchild) →
    drop i (dsq.Filters pchild) = rest →
    mem.surroundings l h q naive child pq pnaive pchild →
    ∃ h' naive' child',
      mem.filtersLoop d q (mem.Filters child) (length rest) i h naive child
      = Some (h', (naive', child'))
      ∧ mem.stable l h h'
      ∧ mem.view h' naive' = Some (keytransform.filtersLoop d pq i rest pnaive pchild).1
      ∧ mem.view h' child' = Some (keytransform.filtersLoop d pq i rest pnaive pchild).2.
Proof.
  induction rest as [|fp rest IH];
    intros i h cur naive child pnaive pchild Hsl Hl Hres Hdrop Hsur.
  { exists h, naive, child. simpl. split; [done|]. split; [by eapply stable_refl|].
    destruct Hsur as (Hos & Hp & Hr & Ho & Hlim & Hn & _).
    split; [done|]. apply view_spec. split; [done|]. split; [|done].
    apply viewFilters_spec. exists cur. split; [|done].
    rewrite Hsl. by apply readFilters_array. }
  apply drop_cons_inv in Hdrop as (Hfp & Hdrop & Hi).
  destruct (Forall2_lookup_r _ _ _ _ _ Hres Hfp) as (fm & Hfm & Hfmp).
  assert (Hlen : length cur = length (dsq.Filters pchild)) by by eapply Forall2_length.
  assert (Hidx : mem.indexFilters h (mem.Filters child) i = Some fm).
  { unfold mem.indexFilters. rewrite Hsl, (readFilters_array l h cur Hl). done. }
  (* one more turn of the loop, after the write of [x] in a heap [h1] *)
  assert (Hstep : ∀ h1 (x : mem.Filter) (xp : dsq.Filter),
    mem.stable l h h1 → h1 !! l = Some (mem.ArrFilters cur) →
    mem.resolve h1 x = Some xp →
    ∃ h' naive' child',
      (h2 ← mem.storeFilter h1 (mem.Filters child) i x;
       mem.filtersLoop d q (mem.Filters child) (length rest) (S i) h2 naive child)
      = Some (h', (naive', child'))
      ∧ mem.stable l h h'
      ∧ mem.view h' naive'
        = Some (keytransform.filtersLoop d pq (S i) rest pnaive
                  (dsq.setFilters pchild (<[i := xp]> (dsq.Filters pchild)))).1
      ∧ mem.view h' child'
        = Some (keytransform.filtersLoop d pq (S i) rest pnaive
                  (dsq.setFilters pchild (<[i := xp]> (dsq.Filters pchild)))).2).
  { intros h1 x xp Hst Hl1 Hx.
    rewrite (storeFilter_array l h1 (mem.Filters child) cur i x Hsl Hl1) by lia.
    cbn [mbind option_bind].
    set (h2 := <[l := mem.ArrFilters (<[i := x]> cur)]> h1).
    assert (Hst12 : mem.stable l h1 h2).
    { split; [exists (<[i := x]> cur); apply lookup_insert_eq|].
      intros l' o Hne Hl'. unfold h2. by rewrite lookup_insert_ne. }
    assert (Hst2 : mem.stable l h h2) by by eapply stable_trans.
    pose proof (stable_objects l h h2 cur Hl Hst2) as Hobj.
    pose proof (stable_objects l h1 h2 cur Hl1 Hst12) as Hobj1.
    destruct (IH (S i) h2 (<[i := x]> cur) naive child pnaive
                (dsq.setFilters pchild (<[i := xp]> (dsq.Filters pchild))))
      as (h' & naive' & child' & Hloop & Hst' & Hvn & Hvc).
    - by rewrite length_insert.
    - apply lookup_insert_eq.
    - simpl. apply Forall2_insert;
        [exact (resolve_all_keeps h h2 _ _ Hobj Hres)
        |exact (resolve_keeps h1 h2 _ _ Hobj1 Hx)].
    - simpl. by rewrite drop_insert_lt by lia.
    - apply surroundings_setFilters.
      exact (surroundings_stable l h h2 cur _ _ _ _ _ _ Hl Hst2 Hsur).
    - exists h', naive', child'.
      split; [exact Hloop|]. split; [by eapply stable_trans|done]. }
  (* a turn of the loop that writes nothing *)
  assert (Hskip : ∃ h' naive' child',
      mem.filtersLoop d q (mem.Filters child) (length rest) (S i) h naive child
      = Some (h', (naive', child'))
      ∧ mem.stable l h h'
      ∧ mem.view h' naive'
        = Some (keytransform.filtersLoop d pq (S i) rest pnaive pchild).1
      ∧ mem.view h' child'
        = Some (keytransform.filtersLoop d pq (S i) rest pnaive pchild).2).
  { by apply (IH (S i) h cur). }
  change (length (fp :: rest)) with (S (length rest)).
  cbn [mem.filtersLoop]. rewrite Hidx. cbn [mbind option_bind].
  destruct fm as [op v|p|op k|p|k|p|g]; simpl in Hfmp.
  - injection Hfmp as <-. exact Hskip.
  - destruct (h !! p) as [[]|]; try done. injection Hfmp as <-. exact Hskip.
  - injection Hfmp as <-.
    apply (Hstep h _ (dsq.FilterKeyCompare op (conv k))); [by eapply stable_refl|done|done].
  - destruct (h !! p) as [[| | |op k|]|] eqn:Hp; try done. injection Hfmp as <-.
    unfold mem.new. cbn [keytransform.filtersLoop].
    set (p' := fresh (dom h)).
    assert (Hfresh : h !! p' = None).
    { apply not_elem_of_dom. apply is_fresh. }
    apply (Hstep (<[p' := mem.ObjKeyCompare op (conv k)]> h) _
             (dsq.FilterKeyComparePtr op (conv k))).
    + split; [exists cur; rewrite lookup_insert_ne; [done|congruence]|].
      intros l' o Hne Hl'. rewrite lookup_insert_ne; [done|congruence].
    + rewrite lookup_insert_ne; [done|congruence].
    + simpl. by rewrite lookup_insert_eq.
  - injection Hfmp as <-.
    apply (Hstep h _ (dsq.FilterKeyPrefix (conv k))); [by eapply stable_refl|done|done].
  - destruct (h !! p) as [[| | | |k]|] eqn:Hp; try done. injection Hfmp as <-.
    unfold mem.new. cbn [keytransform.filtersLoop].
    set (p' := fresh (dom h)).
    assert (Hfresh : h !! p' = None).
    { apply not_elem_of_dom. apply is_fresh. }
    apply (Hstep (<[p' := mem.ObjKeyPrefix (conv k)]> h) _
             (dsq.FilterKeyPrefixPtr (conv k))).
    + split; [exists cur; rewrite lookup_insert_ne; [done|congruence]|].
      intros l' o Hne Hl'. rewrite lookup_insert_ne; [done|congruence].
    + rewrite lookup_insert_ne; [done|congruence].
    + simpl. by rewrite lookup_insert_eq.
  - injection Hfmp as <-. cbn [keytransform.filtersLoop].
    exists h, (mem.puntFilters q naive child).1, (mem.puntFilters q naive child).2.
    split; [done|]. split; [by eapply stable_refl|].
    destruct Hsur as (Hos & Hp & Hr & Ho & Hlim & Hn & _ & Hq & _).
    apply view_spec in Hn as (Hn1 & Hn2 & Hn3 & Hn4 & _).
    apply view_spec in Hq as (Hq1 & Hq2 & Hq3 & Hq4 & Hq5 & Hq6).
    split; apply view_spec; simpl; repeat split; done.
Qed.

End HeapLoops.

Section HeapOrders.
Context {W : Type} (Clean : key.Key → key.Key).
Variable d : keytransform.Datastore W.
Implicit Types (h : mem.Heap) (q naive child : mem.Query).
Implicit Types (pq pnaive pchild : dsq.Query).

Lemma readOrders_reslice h (sl : mem.Slice) (os : list dsq.Order) (n : nat) :
  mem.readOrders h sl = Some os → (n ≤ length os)%nat →
  ∃ sl', mem.resliceTo sl n = Some sl' ∧ mem.readOrders h sl' = Some (take n os).
Proof.
  unfold mem.readOrders, mem.resliceTo, mem.window.
  destruct sl as [[l|] off len cap]; simpl; intros Hread Hn.
  - destruct (mem.ordersArray h l) as [a|] eqn:Ha; simpl in *; [|done].
    case_decide as Hfit; [|done]. injection Hread as <-.
    rewrite length_take, length_drop in Hn.
    rewrite decide_True by lia. eexists. split; [done|]. simpl. rewrite Ha. simpl.
    rewrite decide_True by lia. rewrite take_take. do 2 f_equal. lia.
  - case_decide as Hfit; [|done]. injection Hread as <-.
    rewrite length_take, length_drop in Hn.
    rewrite decide_True by lia. eexists. split; [done|]. simpl.
    rewrite decide_True by lia. rewrite take_take. do 2 f_equal. lia.
Qed.

(** The loop over the orders, on the heap and on lists, step by step. *)
Lemma ordersLoop_sim (op : bool) h q pq (os rest : list dsq.Order) :
  ∀ (i : nat) naive child pnaive pchild,
    mem.readOrders h (mem.Orders child) = Some os →
    dsq.Orders pchild = os →
    drop i os = rest →
    mem.outline h q pq → mem.outline h naive pnaive → mem.outline h child pchild →
    ∃ naive' child',
      mem.ordersLoop op h q (mem.Orders child) (length rest) i naive child
      = Some (naive', child')
      ∧ mem.outline h naive' (keytransform.ordersLoop op pq i rest pnaive pchild).1
      ∧ mem.outline h child' (keytransform.ordersLoop op pq i rest pnaive pchild).2
      ∧ mem.Filters naive' = mem.Filters naive
      ∧ mem.Filters child' = mem.Filters child.
Proof.
  induction rest as [|o rest IH];
    intros i naive child pnaive pchild Hread Hos Hdrop Hq Hn Hc.
  { exists naive, child. simpl. split; [done|]. split; [exact Hn|]. by split. }
  apply drop_cons_inv in Hdrop as (Ho & Hdrop & Hi).
  assert (Hidx : mem.indexOrders h (mem.Orders child) i = Some o).
  { unfold mem.indexOrders. rewrite Hread. done. }
  change (length (o :: rest)) with (S (length rest)).
  cbn [mem.ordersLoop]. rewrite Hidx. cbn [mbind option_bind].
  assert (Hpunt : ∃ naive' child',
      Some (mem.puntOrders q naive child) = Some (naive', child')
      ∧ mem.outline h naive' (keytransform.puntOrders pq pnaive pchild).1
      ∧ mem.outline h child' (keytransform.puntOrders pq pnaive pchild).2
      ∧ mem.Filters naive' = mem.Filters naive
      ∧ mem.Filters child' = mem.Filters child).
  { exists (mem.puntOrders q naive child).1, (mem.puntOrders q naive child).2.
    split; [done|].
    destruct Hq as (Hq1 & Hq2 & Hq3 & Hq4 & Hq5).
    destruct Hn as (Hn1 & Hn2 & Hn3 & Hn4 & Hn5).
    destruct Hc as (Hc1 & Hc2 & Hc3 & Hc4 & Hc5).
    unfold mem.outline. simpl. by repeat split. }
  assert (Hcut : op = true → ∃ naive' child',
      (sl ← mem.resliceTo (mem.Orders child) (S i);
       Some (naive, mem.setOrders child sl)) = Some (naive', child')
      ∧ mem.outline h naive' pnaive
      ∧ mem.outline h child'
          (dsq.setOrders pchild (take (S i) (dsq.Orders pchild)))
      ∧ mem.Filters naive' = mem.Filters naive
      ∧ mem.Filters child' = mem.Filters child).
  { intros _. destruct (readOrders_reslice h _ os (S i) Hread) as (sl & -> & Hsl); [lia|].
    simpl. exists naive, (mem.setOrders child sl). split; [done|]. split; [done|].
    destruct Hc as (Hc1 & Hc2 & Hc3 & Hc4 & Hc5). rewrite Hos.
    unfold mem.outline. simpl. by repeat split. }
  destruct o; cbn [keytransform.ordersLoop];
    first [ by apply (IH (S i))
          | destruct op; [by apply Hcut|exact Hpunt]
          | exact Hpunt ].
Qed.

End HeapOrders.

Section HeapPlanner.
Context {W : Type} (Clean : key.Key → key.Key).
Variable d : keytransform.Datastore W.
Implicit Types (h : mem.Heap) (q naive child : mem.Query).
Implicit Types (pq pnaive pchild : dsq.Query).

Lemma view_subseteq h h' q pq : h ⊆ h' → mem.view h q = Some pq → mem.view h' q = Some pq.
Proof.
  intros Hsub. apply view_keeps; intros l o _; by apply subseteq_keeps.
Qed.

Lemma readFilters_in_heap h (sl : mem.Slice) (ms : list mem.Filter) l :
  mem.readFilters h sl = Some ms → mem.array sl = Some l → is_Some (h !! l).
Proof.
  unfold mem.readFilters, mem.filtersArray. intros Hread Harr.
  rewrite Harr in Hread. simpl in Hread. by destruct (h !! l).
Qed.

(** C9.  On a heap where the slices and the pointers of the query are
    valid, prepareQuery returns (it does not panic), and in the heap it
    leaves every object of the heap it started from is as it was: the
    backing arrays of the caller's Orders and Filters (so the caller's
    slices show the same elements) and the structs its filters point to.
    What it wrote is in objects it allocated.  The two queries it returns
    stand for the two queries of the split of the query. *)
Theorem prepareQuery_frame h q pq :
  mem.view h q = Some pq →
  ∃ h' naive child,
    mem.prepareQuery Clean d h q = Some (h', (naive, child))
    ∧ h ⊆ h'
    ∧ mem.readOrders h' (mem.Orders q) = mem.readOrders h (mem.Orders q)
    ∧ mem.readFilters h' (mem.Filters q) = mem.readFilters h (mem.Filters q)
    ∧ mem.view h' q = Some pq
    ∧ mem.view h' naive = Some (keytransform.prepareQuery Clean d pq).1
    ∧ mem.view h' child = Some (keytransform.prepareQuery Clean d pq).2.
Proof.
  intros Hview.
  pose proof (proj1 (view_spec _ _ _) Hview) as (Hos & Hfs & Hp & Hr & Hoff & Hlim).
  pose proof (proj1 (viewFilters_spec _ _ _) Hfs) as (ms & Hms & Hres).
  (* it is enough to find the heap and the two queries *)
  cut (∃ h' naive child,
         mem.prepareQuery Clean d h q = Some (h', (naive, child))
         ∧ h ⊆ h'
         ∧ mem.view h' naive = Some (keytransform.prepareQuery Clean d pq).1
         ∧ mem.view h' child = Some (keytransform.prepareQuery Clean d pq).2).
  { intros (h' & naive & child & Hrun & Hsub & Hn & Hc).
    exists h', naive, child. split; [done|]. split; [done|].
    split; [|split; [|split; [by eapply view_subseteq|done]]].
    - rewrite Hos. eapply readOrders_keeps; [|exact Hos].
      intros l o _. by apply subseteq_keeps.
    - rewrite Hms. eapply readFilters_keeps; [|exact Hms].
      intros l o _. by apply subseteq_keeps. }
  rewrite prepareQuery_unfold. unfold mem.prepareQuery. cbv zeta. simpl.
  set (child0 := mem.setRange _ _).
  set (pchild0 := dsq.mkQuery _ _ _ _ _ _).
  destruct (ordersLoop_sim (keytransform.orderPreserving d) h q pq (dsq.Orders pq)
              (dsq.Orders pq) 0 mem.zeroQuery child0 dsq.zeroQuery pchild0)
    as (naive1 & child1 & Hloop & Hn1 & Hc1 & Hfn1 & Hfc1); try done.
  { unfold mem.outline, child0, pchild0. simpl. by rewrite Hp. }
  change (mem.Orders child0) with (mem.Orders q) in Hloop.
  assert (length (dsq.Orders pq) = mem.len (mem.Orders q)) as Hlen.
  { unfold mem.readOrders in Hos.
    destruct (mem.array (mem.Orders q)); simpl in Hos.
    - destruct (mem.ordersArray h l); [|done]. by eapply window_length.
    - by eapply window_length. }
  rewrite <- Hlen, Hloop. cbn [mbind option_bind].
  pose proof (ordersLoop_frame (keytransform.orderPreserving d) pq 0 (dsq.Orders pq)
                dsq.zeroQuery pchild0) as Hframe.
  destruct (keytransform.ordersLoop (keytransform.orderPreserving d) pq 0
              (dsq.Orders pq) dsq.zeroQuery pchild0) as [pnaive1 pchild1].
  simpl in Hframe, Hn1, Hc1. destruct Hframe as (_ & _ & Hpn1 & _ & _ & Hpc1).
  change (mem.Filters child0) with (mem.Filters q) in Hfc1.
  change (mem.Filters mem.zeroQuery) with mem.nilSlice in Hfn1.
  unfold mem.appendToNil. rewrite Hfc1, Hms. cbn [mbind option_bind].
  assert (Hview1 : mem.view h naive1 = Some pnaive1).
  { apply view_spec. destruct Hn1 as (? & ? & ? & ? & ?).
    repeat split; try done. by rewrite Hfn1, Hpn1. }
  rewrite Hpc1. simpl dsq.Filters.
  destruct ms as [|m ms].
  - (* nothing to copy *)
    apply Forall2_nil_inv_l in Hres. rewrite Hres. simpl.
    exists h, naive1, (mem.setFilters child1 mem.nilSlice).
    split; [done|]. split; [done|]. split; [done|].
    apply view_spec. destruct Hc1 as (? & ? & ? & ? & ?).
    repeat split; try done. simpl. by rewrite Hpc1, Hres.
  - (* the copy lives in a fresh array *)
    set (l := fresh (dom h)).
    set (h1 := <[l := mem.ArrFilters (m :: ms)]> h).
    set (copy := mem.mkSlice (Some l) 0 (length (m :: ms)) (length (m :: ms))).
    assert (Hfresh : h !! l = None) by (apply not_elem_of_dom, is_fresh).
    assert (Hsub : h ⊆ h1) by by apply insert_subseteq.
    destruct (filtersLoop_sim d q pq l (dsq.Filters pq) 0 h1 (m :: ms) naive1
                (mem.setFilters child1 copy) pnaive1 pchild1)
      as (h' & naive' & child' & Hrun & Hst & Hvn & Hvc).
    + done.
    + apply lookup_insert_eq.
    + rewrite Hpc1. eapply resolve_all_keeps; [|exact Hres].
      intros l' o _. by apply subseteq_keeps.
    + by rewrite Hpc1.
    + destruct Hc1 as (Hc11 & Hc12 & Hc13 & Hc14 & Hc15).
      unfold mem.surroundings. simpl.
      split; [eapply readOrders_keeps; [|exact Hc11]; intros l' o _;
              by apply subseteq_keeps|].
      do 4 (split; [done|]).
      split; [by eapply view_subseteq|]. split; [by rewrite Hfn1|].
      split; [by eapply view_subseteq|].
      intros Harr. destruct (readFilters_in_heap h _ _ l Hms Harr) as [o Ho]. congruence.
    + assert (length (dsq.Filters pq) = length (m :: ms)) as Hlen'.
      { symmetry. by eapply Forall2_length. }
      simpl mem.Filters in Hrun. rewrite Hlen' in Hrun.
      exists h', naive', child'. split; [exact Hrun|]. split; [|done].
      apply map_subseteq_spec. intros l' o Hl'.
      apply (proj2 Hst); [congruence|]. by eapply lookup_weaken.
Qed.

End HeapPlanner.

Lemma prepareQuery_frame_witness :
  ∃ h' naive child,
    mem.prepareQuery examples.cleaned examples.prefixed examples.heap examples.heapQuery
    = Some (h', (naive, child))
    ∧ examples.heap ⊆ h'
    ∧ mem.readOrders h' (mem.Orders examples.heapQuery)
      = mem.readOrders examples.heap (mem.Orders examples.heapQuery)
    ∧ mem.readFilters h' (mem.Filters examples.heapQuery)
      = mem.readFilters examples.heap (mem.Filters examples.heapQuery)
    ∧ mem.view h' examples.heapQuery = Some examples.heapView
    ∧ mem.view h' naive
      = Some (keytransform.prepareQuery examples.cleaned examples.prefixed
                examples.heapView).1
    ∧ mem.view h' child
      = Some (keytransform.prepareQuery examples.cleaned examples.prefixed
                examples.heapView).2.
Proof.
  apply (prepareQuery_frame examples.cleaned examples.prefixed examples.heap
           examples.heapQuery examples.heapView).
  vm_compute. reflexivity.
Defined.

(** On the example the rewritten filters are in a new array at 4 and the
    rewritten struct is at 5; the arrays at 1 and 2 and the struct at 3 are
    as they were. *)
Lemma prepareQuery_on_heap :
  ∃ h' naive child,
    mem.prepareQuery examples.cleaned examples.prefixed examples.heap examples.heapQuery
    = Some (h', (naive, child))
    ∧ mem.Filters child = mem.mkSlice (Some 4%positive) 0 3 3
    ∧ mem.Orders child = mem.mkSlice (Some 1%positive) 0 2 3
    ∧ h' !! 4%positive
      = Some (mem.ArrFilters
                [mem.FilterKeyPrefix "/ns/a"; mem.FilterKeyComparePtr 5%positive;
                 mem.FilterValueCompare dsq.NotEqual []])
    ∧ h' !! 5%positive = Some (mem.ObjKeyCompare dsq.LessThan "/ns/b")
    ∧ h' !! 3%positive = Some (mem.ObjKeyCompare dsq.LessThan "/b")
    ∧ h' !! 2%positive = examples.heap !! 2%positive
    ∧ h' !! 1%positive = examples.heap !! 1%positive.
Proof.
  eexists _, _, _. split; [vm_compute; reflexivity|]. vm_compute. by repeat split.
Qed.

(** * More of the planner *)
Section PlannerShape.
Context {W : Type} (Clean : key.Key -> key.Key).
Implicit Types (d : keytransform.Datastore W) (q naive child : dsq.Query).

Local Abbreviation allByValue := (Forall (λ o, plan.byValue o = true)).
Local Abbreviation allRecognized := (Forall (λ f, plan.recognized f = true)).
Local Abbreviation conv d := (keytransform.ConvertKey (keytransform.KeyTransform_ d)).

Lemma recognized_rewriteFilter (c : key.Key → key.Key) (f : dsq.Filter) :
  plan.recognized (plan.rewriteFilter c f) = plan.recognized f.
Proof. by destruct f. Qed.

Lemma forcesOrders_nil op i : ¬ plan.forcesOrders op [] i.
Proof. intros (o & Hl & _). by rewrite lookup_nil in Hl. Qed.

Lemma forcesFilters_nil i : ¬ plan.forcesFilters [] i.
Proof. intros (f & Hl & _). by rewrite lookup_nil in Hl. Qed.

(** X1.  Whatever the orders and the filters of the query, the prefix of
    the child query is the prefix of the query, cleaned and then converted,
    and the two loops leave it alone. *)
Theorem prepareQuery_prefix_delegated d q :
  dsq.Prefix (keytransform.prepareQuery Clean d q).2 = conv d (Clean (dsq.Prefix q)).
Proof.
  rewrite prepareQuery_unfold. cbv zeta.
  pose proof (ordersLoop_frame (keytransform.orderPreserving d) q 0 (dsq.Orders q)
    dsq.zeroQuery
    (dsq.mkQuery (conv d (Clean (dsq.Prefix q))) dsq.zeroRange
       (dsq.Orders q) (dsq.Filters q) (dsq.Offset q) (dsq.Limit q))) as Ho.
  destruct keytransform.ordersLoop as [naive child]. simpl in Ho.
  destruct Ho as (_ & _ & _ & Hp & _).
  pose proof (filtersLoop_frame d q 0 (dsq.Filters child) naive child [] eq_refl eq_refl)
    as Hf.
  simpl in Hf. destruct Hf as (_ & _ & _ & Hp' & _).
  congruence.
Qed.

(** X2.  Offset and limit travel together and are applied once: either the
    naive query is the zero query and the child has the offset and the limit
    of the query, or the child has offset zero and limit zero and the naive
    query has those of the query.  The child never cuts a stream that the
    naive post-processor still has to filter or to sort. *)
Theorem prepareQuery_offset_limit_once d q :
  let naive := (keytransform.prepareQuery Clean d q).1 in
  let child := (keytransform.prepareQuery Clean d q).2 in
  (naive = dsq.zeroQuery
   ∧ dsq.Offset child = dsq.Offset q ∧ dsq.Limit child = dsq.Limit q)
  ∨ (dsq.Offset child = 0 ∧ dsq.Limit child = 0
     ∧ dsq.Offset naive = dsq.Offset q ∧ dsq.Limit naive = dsq.Limit q).
Proof.
  intros naive child. subst naive child.
  destruct (prepareQuery_plan Clean d q) as (co & po & pf & -> & _ & _).
  destruct po, pf; simpl;auto.
Qed.

(** X3.  The orders go to one side only: either the naive query has no
    orders and the child has the first orders of the query, or the naive
    query has all the orders of the query and the child has none.  An order
    the child gets is by value, or by key under an order-preserving
    transform: an order of an unknown kind never reaches the child. *)
Theorem prepareQuery_orders_one_side d q :
  let naive := (keytransform.prepareQuery Clean d q).1 in
  let child := (keytransform.prepareQuery Clean d q).2 in
  ((dsq.Orders naive = [] ∧ ∃ n, dsq.Orders child = take n (dsq.Orders q))
   ∨ (dsq.Orders naive = dsq.Orders q ∧ dsq.Orders child = []))
  ∧ Forall (λ o, plan.byValue o = true
                 ∨ plan.byKey o = true ∧ keytransform.orderPreserving d = true)
      (dsq.Orders child).
Proof.
  intros naive child. subst naive child.
  destruct (prepareQuery_plan Clean d q) as (co & po & pf & -> & Ho & _).
  destruct Ho as [[-> [[Hall ->]|(i & o & Hl & Hk & Hop & Hb & ->)]]|[-> _]]; simpl.
  - split.
    + left. split; [done|]. exists (length (dsq.Orders q)). by rewrite firstn_all.
    + eapply Forall_impl; [exact Hall|]. simpl. auto.
  - split; [left; split; [done|by exists (S i)]|].
    apply Forall_lookup. intros j o' Hj.
    apply lookup_take_Some in Hj as [Hj Hlt].
    destruct (decide (j = i)) as [->|Hne].
    + right. by simplify_eq.
    + left. apply (Hb j o'); [lia|done].
  - split; [by right|constructor].
Qed.

(** X4.  The filters go to one side only: either the naive query has no
    filters and the child has every filter of the query, rewritten, or the
    naive query has all the filters of the query and the child has none.
    No filter is lost, and a filter of an unknown kind never reaches the
    child. *)
Theorem prepareQuery_filters_one_side d q :
  let naive := (keytransform.prepareQuery Clean d q).1 in
  let child := (keytransform.prepareQuery Clean d q).2 in
  ((dsq.Filters naive = []
    ∧ dsq.Filters child = map (plan.rewriteFilter (conv d)) (dsq.Filters q))
   ∨ (dsq.Filters naive = dsq.Filters q ∧ dsq.Filters child = []))
  ∧ (length (dsq.Filters naive) + length (dsq.Filters child)
     = length (dsq.Filters q))%nat
  ∧ allRecognized (dsq.Filters child).
Proof.
  intros naive child. subst naive child.
  destruct (prepareQuery_plan Clean d q) as (co & po & pf & -> & _ & Hf).
  destruct Hf as [[-> Hall]|[-> _]]; simpl.
  - split; [by left|]. split; [by rewrite length_map|].
    apply Forall_forall. intros f' Hin. apply list_elem_of_In, in_map_iff in Hin.
    destruct Hin as (f & <- & Hin). rewrite recognized_rewriteFilter.
    apply list_elem_of_In in Hin. by apply (proj1 (Forall_forall _ _) Hall).
  - split; [by right|]. split; [lia|constructor].
Qed.

(** X5.  The naive query is the zero query exactly when every concern of
    the query is delegable: a fallback always leaves its orders or its
    filters, of which there is at least one, with the naive query. *)
Theorem prepareQuery_naive_zero_iff d q :
  (keytransform.prepareQuery Clean d q).1 = dsq.zeroQuery
  ↔ plan.delegable (keytransform.orderPreserving d) q.
Proof.
  destruct (prepareQuery_plan Clean d q) as (co & po & pf & -> & Ho & Hf).
  split.
  - intros Hzero. split; intros i Hforce.
    + destruct Ho as [[-> [[Hall _]|(i' & o' & Hl' & Hk' & Hop & Hb' & _)]]|[-> _]].
      * by apply forcesOrders_not_byValue in Hforce.
      * destruct Hforce as (o & Hl & Hk & Hb).
        assert (plan.byValue o' = false) as Hv' by by apply byKey_not_byValue.
        assert (plan.byValue o = false) as Hv.
        { destruct Hk as [[Hk _]|[Hk _]]; [by apply byKey_not_byValue|done]. }
        assert (i = i') as -> by by eapply first_stop_unique.
        simplify_eq. destruct Hk as [[_ Hk]|[_ Hk]]; congruence.
      * simpl in Hzero. injection Hzero as Hos _ _ _.
        rewrite Hos in Hforce. by apply forcesOrders_nil in Hforce.
    + destruct Hf as [[-> Hall]|[-> _]].
      * by apply forcesFilters_not_recognized in Hforce.
      * simpl in Hzero. rewrite orb_true_r in Hzero. injection Hzero as _ Hfs _ _.
        rewrite Hfs in Hforce. by apply forcesFilters_nil in Hforce.
  - intros [HnO HnF].
    destruct Ho as [[-> _]|[_ [i Hforce]]]; [|by apply HnO in Hforce].
    destruct Hf as [[-> _]|[_ [i Hforce]]]; [|by apply HnF in Hforce].
    done.
Qed.

(** X6.  Orders that are all by value are delegated whatever the
    transform: the child has the orders of the query and the naive query has
    none. *)
Theorem prepareQuery_value_orders_delegated d q :
  allByValue (dsq.Orders q) →
  dsq.Orders (keytransform.prepareQuery Clean d q).2 = dsq.Orders q
  ∧ dsq.Orders (keytransform.prepareQuery Clean d q).1 = [].
Proof.
  intros Hall.
  destruct (prepareQuery_plan Clean d q) as (co & po & pf & -> & Ho & _).
  destruct Ho as [[-> [[_ ->]|(i & o & Hl & Hk & _)]]|[-> [i Hforce]]]; simpl.
  - done.
  - pose proof (proj1 (Forall_lookup _ _) Hall i o Hl) as Hv. simpl in Hv.
    apply byKey_not_byValue in Hk. congruence.
  - by apply forcesOrders_not_byValue in Hforce.
Qed.

Lemma ordersLoop_setRange (op : bool) q (r : dsq.Range) i rest naive child :
  keytransform.ordersLoop op (dsq.setRange q r) i rest naive child
  = keytransform.ordersLoop op q i rest naive child.
Proof.
  revert i. induction rest as [|o rest IH]; intros i; [done|].
  destruct o; simpl; auto.
Qed.

Lemma filtersLoop_setRange d q (r : dsq.Range) i rest naive child :
  keytransform.filtersLoop d (dsq.setRange q r) i rest naive child
  = keytransform.filtersLoop d q i rest naive child.
Proof.
  revert i child. induction rest as [|f rest IH]; intros i child; [done|].
  destruct f; simpl; auto.
Qed.

(** X7.  The range of a query has no effect: with any other range, a query
    is split into the same two queries, and [Query] returns the same stream,
    the same error and the same state. *)
Theorem Query_range_has_no_effect d q (r : dsq.Range) (ctx : Context) (s : W) :
  keytransform.prepareQuery Clean d (dsq.setRange q r)
  = keytransform.prepareQuery Clean d q
  ∧ keytransform.Query Clean d ctx (dsq.setRange q r) s
    = keytransform.Query Clean d ctx q s.
Proof.
  assert (Hsplit : keytransform.prepareQuery Clean d (dsq.setRange q r)
                   = keytransform.prepareQuery Clean d q).
  { rewrite !prepareQuery_unfold. cbv zeta.
    change (dsq.Orders (dsq.setRange q r)) with (dsq.Orders q).
    change (dsq.Filters (dsq.setRange q r)) with (dsq.Filters q).
    change (dsq.Offset (dsq.setRange q r)) with (dsq.Offset q).
    change (dsq.Limit (dsq.setRange q r)) with (dsq.Limit q).
    change (dsq.Prefix (dsq.setRange q r)) with (dsq.Prefix q).
    rewrite ordersLoop_setRange.
    destruct keytransform.ordersLoop as [naive child].
    apply filtersLoop_setRange. }
  split; [exact Hsplit|].
  unfold keytransform.Query. rewrite Hsplit.
  destruct (keytransform.prepareQuery Clean d q) as [nq cq].
  destruct (ds.Query (keytransform.child d) ctx cq s) as [[cqr [e|]] s']; [done|].
  by rewrite !ResultsFromIterator_queryNext by lia.
Qed.

End PlannerShape.

Section PlannerInputs.
Context {W1 W2 : Type} (Clean : key.Key -> key.Key).
Variables (d1 : keytransform.Datastore W1) (d2 : keytransform.Datastore W2).

Local Abbreviation conv d := (keytransform.ConvertKey (keytransform.KeyTransform_ d)).

Lemma ordersLoop_op (op1 op2 : bool) q i rest naive child :
  op1 = op2 ∨ Forall (λ o, plan.byKey o = false) rest →
  keytransform.ordersLoop op1 q i rest naive child
  = keytransform.ordersLoop op2 q i rest naive child.
Proof.
  intros [->|Hnone]; [done|].
  revert i. induction rest as [|o rest IH]; intros i; [done|].
  inversion Hnone as [|? ? Ho Hrest]; subst.
  destruct o; simpl in Ho |- *; try discriminate; auto.
Qed.

Lemma filtersLoop_conv q i rest naive child :
  (∀ k, conv d1 k = conv d2 k) →
  keytransform.filtersLoop d1 q i rest naive child
  = keytransform.filtersLoop d2 q i rest naive child.
Proof.
  intros Hconv. revert i child.
  induction rest as [|f rest IH]; intros i child; [done|].
  destruct f; simpl; rewrite ?Hconv; auto.
Qed.

(** X8.  Of the wrapper the planner reads the conversion of keys and
    whether the transform is a PrefixTransform, and the latter only for a
    query with an order by key: two wrappers whose conversions agree on
    every key, around any children and with any inversions, split a query
    alike when both or neither are PrefixTransforms or when the query has no
    order by key. *)
Theorem prepareQuery_reads_conversion_only q :
  (∀ k, conv d1 k = conv d2 k) →
  keytransform.orderPreserving d1 = keytransform.orderPreserving d2
  ∨ Forall (λ o, plan.byKey o = false) (dsq.Orders q) →
  keytransform.prepareQuery Clean d1 q = keytransform.prepareQuery Clean d2 q.
Proof.
  intros Hconv Hop. rewrite !prepareQuery_unfold. cbv zeta.
  rewrite Hconv.
  rewrite (ordersLoop_op _ (keytransform.orderPreserving d2)) by done.
  destruct keytransform.ordersLoop as [naive child].
  by apply filtersLoop_conv.
Qed.

End PlannerInputs.

Lemma prepareQuery_value_orders_delegated_witness :
  dsq.Orders (keytransform.prepareQuery examples.cleaned examples.exchanged
                examples.paged).2 = [dsq.OrderByValue]
  ∧ dsq.Orders (keytransform.prepareQuery examples.cleaned examples.exchanged
                  examples.paged).1 = [].
Proof.
  apply (prepareQuery_value_orders_delegated examples.cleaned examples.exchanged
           examples.paged).
  by repeat constructor.
Defined.

Lemma prepareQuery_reads_conversion_only_witness :
  let q := dsq.mkQuery "/" dsq.zeroRange [dsq.OrderByValue]
             [dsq.FilterKeyPrefix "/a"; examples.accept] 3 5 in
  keytransform.prepareQuery examples.cleaned examples.prefixed q
  = keytransform.prepareQuery examples.cleaned
      (keytransform.mkDatastore _ (recorder.store true)
         (keytransform.mkKeyTransform (λ k, "/ns" +:+ k) (λ k, k) keytransform.TOther))
      q.
Proof.
  intros q.
  apply (prepareQuery_reads_conversion_only examples.cleaned examples.prefixed
           (keytransform.mkDatastore _ (recorder.store true)
              (keytransform.mkKeyTransform (λ k, "/ns" +:+ k) (λ k, k)
                 keytransform.TOther)) q).
  - intros k. reflexivity.
  - right. subst q. simpl. by repeat constructor.
Defined.

(** * More of the wrapper: construction, queries, batches and stacks *)
Section WrapperFacts.
Context {W : Type} (Clean : key.Key -> key.Key).
Implicit Types (d : keytransform.Datastore W) (q : dsq.Query) (s : W).

Local Abbreviation conv d := (keytransform.ConvertKey (keytransform.KeyTransform_ d)).
Local Abbreviation inv d := (keytransform.InvertKey (keytransform.KeyTransform_ d)).

(** X9.  [Wrap] panics exactly when the child or the transform is nil;
    otherwise the wrapper it returns holds this child and this transform,
    and the child is its only child. *)
Theorem Wrap_panics_on_nil (c : option (ds.Datastore W))
    (t : option keytransform.KeyTransform) :
  (keytransform.Wrap c t = None ↔ c = None ∨ t = None)
  ∧ ∀ d, keytransform.Wrap c t = Some d →
         c = Some (keytransform.child d)
         ∧ t = Some (keytransform.KeyTransform_ d)
         ∧ keytransform.Children d = [keytransform.child d].
Proof.
  split.
  - destruct c as [c|], t as [t|]; simpl; split; intros H; auto; try discriminate;
      by destruct H.
  - intros d Hd. destruct c as [c|], t as [t|]; simpl in Hd; try discriminate.
    by simplify_eq.
Qed.

(** X10.  [Query] calls the child's query once, on the child query of the
    split, and neither hides nor invents a failure: the state it leaves and
    the error it returns are those of this call, and it returns no stream
    exactly when this call failed. *)
Theorem Query_fails_with_child d (ctx : Context) q s :
  let answer :=
    ds.Query (keytransform.child d) ctx (keytransform.prepareQuery Clean d q).2 s in
  let result := keytransform.Query Clean d ctx q s in
  result.2 = answer.2
  ∧ result.1.2 = answer.1.2
  ∧ (result.1.1 = None ↔ answer.1.2 ≠ None).
Proof.
  intros answer result. subst answer result. unfold keytransform.Query.
  destruct (keytransform.prepareQuery Clean d q) as [nq cq]. simpl.
  destruct (ds.Query (keytransform.child d) ctx cq s) as [[cqr [e|]] s']; simpl.
  - split; [done|]. split; [done|]. split; [discriminate|done].
  - split; [done|]. split; [done|]. split; [discriminate|by intros H].
Qed.

(** X11.  The stream is lazy and keeps the order of the child: after any
    number of calls of [Next] it has shown that many of the first results of
    the child, each as the stream shows it, and no more than the child has. *)
Theorem stream_follows_child d q (cqr : dsq.Results) (fuel : nat) :
  dsq.ResultsFromIterator fuel q
    (dsq.mkIterator (keytransform.queryNext d) keytransform.queryClose) cqr
  = take fuel (map (plan.shown (inv d)) cqr).
Proof.
  revert cqr. induction fuel as [|fuel IH]; intros cqr; [done|].
  destruct cqr as [|r cqr]; [done|].
  simpl. rewrite IH. f_equal.
  unfold plan.shown, dsq.setKey. destruct (dsq.Error r) eqn:He; [done|].
  destruct r; simplify_eq/=. done.
Qed.

(** X12.  When inverting undoes converting, the stream gives back under
    their own keys the results the child holds under converted keys; a
    result that carries an error is passed on as the child gave it, its key
    still converted. *)
Theorem stream_round_trip d q (rs : dsq.Results) :
  (∀ k, inv d (conv d k) = k) →
  dsq.ResultsFromIterator (S (length rs)) q
    (dsq.mkIterator (keytransform.queryNext d) keytransform.queryClose)
    (map (memstore.convertResult (keytransform.KeyTransform_ d)) rs)
  = map (λ r, match dsq.Error r with
              | None => r
              | Some _ => memstore.convertResult (keytransform.KeyTransform_ d) r
              end) rs.
Proof.
  intros Hround. rewrite ResultsFromIterator_queryNext by (rewrite length_map; lia).
  rewrite map_map. apply map_ext. intros [[k v n] [e|]]; [done|].
  unfold plan.shown. simpl. by rewrite Hround.
Qed.

(** X13.  [Batch] does not look at the batch of the child: when the child
    returns a nil batch and no error, [Batch] returns a batch and no error,
    and every method of this batch panics. *)
Theorem Batch_wraps_nil_batch d (ctx : Context) s bds s' :
  ds.Batching (keytransform.child d) = Some bds →
  bds ctx s = ((None, None), s') →
  ∃ t, keytransform.Batch d ctx s = ((Some t, None), s')
       ∧ ∀ (ctx' : Context) (k : key.Key) (val : list byte) (s1 : W),
           keytransform.transformBatch_Put t ctx' k val s1 = None
           ∧ keytransform.transformBatch_Delete t ctx' k s1 = None
           ∧ keytransform.transformBatch_Commit t ctx' s1 = None.
Proof.
  intros Hbds Hnil. unfold keytransform.Batch. rewrite Hbds, Hnil.
  eexists. split; [reflexivity|]. by intros ctx' k val s1.
Qed.

(** X14.  What the child guarantees on distinct keys, the wrapper
    guarantees on distinct keys when inverting undoes converting, since
    distinct keys are then converted to distinct keys: if a [Put] or a
    [Delete] of the child leaves what [Get] and [Has] answer on every other
    key, so does a [Put] or a [Delete] of the wrapper. *)
Theorem writes_stay_apart d :
  (∀ k, inv d (conv d k) = k) →
  (∀ (ctx ctx' : Context) k k' v s, k ≠ k' →
     let c := keytransform.child d in
     (ds.Get c ctx' k' (ds.Put c ctx k v s).2).1 = (ds.Get c ctx' k' s).1
     ∧ (ds.Has c ctx' k' (ds.Put c ctx k v s).2).1 = (ds.Has c ctx' k' s).1
     ∧ (ds.Get c ctx' k' (ds.Delete c ctx k s).2).1 = (ds.Get c ctx' k' s).1
     ∧ (ds.Has c ctx' k' (ds.Delete c ctx k s).2).1 = (ds.Has c ctx' k' s).1) →
  ∀ (ctx ctx' : Context) k k' v s, k ≠ k' →
    (keytransform.Get d ctx' k' (keytransform.Put d ctx k v s).2).1
    = (keytransform.Get d ctx' k' s).1
    ∧ (keytransform.Has d ctx' k' (keytransform.Put d ctx k v s).2).1
      = (keytransform.Has d ctx' k' s).1
    ∧ (keytransform.Get d ctx' k' (keytransform.Delete d ctx k s).2).1
      = (keytransform.Get d ctx' k' s).1
    ∧ (keytransform.Has d ctx' k' (keytransform.Delete d ctx k s).2).1
      = (keytransform.Has d ctx' k' s).1.
Proof.
  intros Hround Hchild ctx ctx' k k' v s Hne.
  unfold keytransform.Get, keytransform.Has, keytransform.Put, keytransform.Delete.
  apply Hchild. intros Heq. apply Hne.
  rewrite <- (Hround k), <- (Hround k'). by rewrite Heq.
Qed.

End WrapperFacts.

Section Stacked.
Context {W : Type} (Clean : key.Key -> key.Key).
Variables (inner : keytransform.Datastore W) (t : keytransform.KeyTransform).

Local Abbreviation conv d := (keytransform.ConvertKey (keytransform.KeyTransform_ d)).
Local Abbreviation inv d := (keytransform.InvertKey (keytransform.KeyTransform_ d)).
Local Abbreviation outer :=
  (keytransform.mkDatastore W (keytransform.asDatastore Clean inner) t).
Local Abbreviation base := (keytransform.child inner).

(** X15.  A wrapper around a wrapper converts a key twice, first by the
    outer transform and then by the inner one, and batches as the innermost
    child does: without batching there, [Batch] returns the
    unsupported-batching error through both wrappers and leaves the state;
    on a batch of the innermost child, [Put] and [Delete] get the key
    converted twice; an error of the innermost child comes back as it is. *)
Theorem stacked_batch (ctx : Context) (s : W) :
  (ds.Batching base = None →
   keytransform.Batch outer ctx s = ((None, Some ds.ErrBatchUnsupported), s))
  ∧ (∀ bds childbatch s',
       ds.Batching base = Some bds →
       bds ctx s = ((Some childbatch, None), s') →
       ∃ b, keytransform.Batch outer ctx s = ((Some b, None), s')
            ∧ ∀ (ctx' : Context) (k : key.Key) (val : list byte) (s1 : W),
                keytransform.transformBatch_Put b ctx' k val s1
                = Some (ds.BatchPut childbatch ctx'
                          (conv inner (keytransform.ConvertKey t k)) val s1)
                ∧ keytransform.transformBatch_Delete b ctx' k s1
                  = Some (ds.BatchDelete childbatch ctx'
                            (conv inner (keytransform.ConvertKey t k)) s1)
                ∧ keytransform.transformBatch_Commit b ctx' s1
                  = Some (ds.Commit childbatch ctx' s1))
  ∧ (∀ bds childbatch e s',
       ds.Batching base = Some bds →
       bds ctx s = ((childbatch, Some e), s') →
       keytransform.Batch outer ctx s = ((None, Some e), s')).
Proof.
  unfold keytransform.Batch. simpl. unfold keytransform.Batch.
  split; [|split].
  - by intros ->.
  - intros bds childbatch s' -> Hb. rewrite Hb. simpl.
    eexists. split; [reflexivity|]. by intros ctx' k val s1.
  - intros bds childbatch e s' -> Hb. by rewrite Hb.
Qed.

(** X16.  A query through a wrapper around a wrapper is split twice: the
    innermost child gets the child query of the inner split of the child
    query of the outer split; its results are shown and post-processed by
    the inner wrapper, then shown and post-processed by the outer one; and
    when it fails its error comes back through both wrappers, with no
    stream. *)
Theorem stacked_query (ctx : Context) (q : dsq.Query) (s : W) :
  let outerSplit := keytransform.prepareQuery Clean outer q in
  let innerSplit := keytransform.prepareQuery Clean inner outerSplit.2 in
  (∀ cqr s',
     ds.Query base ctx innerSplit.2 s = ((cqr, None), s') →
     keytransform.Query Clean outer ctx q s
     = ((Some (dsq.NaiveQueryApply outerSplit.1
                 (map (plan.shown (keytransform.InvertKey t))
                    (dsq.NaiveQueryApply innerSplit.1
                       (map (plan.shown (inv inner)) cqr)))), None), s'))
  ∧ (∀ cqr e s',
       ds.Query base ctx innerSplit.2 s = ((cqr, Some e), s') →
       keytransform.Query Clean outer ctx q s = ((None, Some e), s')).
Proof.
  intros outerSplit innerSplit. subst innerSplit outerSplit. split.
  - intros cqr s' Hbase.
    apply (Query_child_succeeds Clean outer).
    cbn [keytransform.child keytransform.asDatastore ds.Query].
    by rewrite (Query_child_succeeds Clean inner ctx _ s cqr s' Hbase).
  - intros cqr e s' Hbase.
    apply (query_error_forwarded Clean outer ctx q s []).
    cbn [keytransform.child keytransform.asDatastore ds.Query].
    by rewrite (query_error_forwarded Clean inner ctx _ s cqr e s' Hbase).
Qed.

End Stacked.

Lemma find_put_other (k k' : key.Key) (v : list byte) (es : list dsq.Entry) :
  k ≠ k' → memstore.find k' (memstore.put k v es) = memstore.find k' es.
Proof.
  intros Hne. induction es as [|e es IH]; simpl.
  - by rewrite (proj2 (String.eqb_neq k k')).
  - destruct (String.eqb (dsq.Key e) k) eqn:Hk; simpl.
    + apply String.eqb_eq in Hk. rewrite Hk.
      by rewrite (proj2 (String.eqb_neq k k')).
    + by rewrite IH.
Qed.

Lemma find_remove_other (k k' : key.Key) (es : list dsq.Entry) :
  k ≠ k' → memstore.find k' (memstore.remove k es) = memstore.find k' es.
Proof.
  intros Hne. unfold memstore.remove. induction es as [|e es IH]; [done|]. simpl.
  destruct (String.eqb (dsq.Key e) k) eqn:Hk; simpl.
  - apply String.eqb_eq in Hk. rewrite Hk.
    by rewrite (proj2 (String.eqb_neq k k')).
  - by rewrite IH.
Qed.

Lemma Query_fails_with_child_witness :
  let d := keytransform.mkDatastore _ faulty.store (keytransform.PrefixTransform "/ns") in
  (keytransform.Query examples.cleaned d 0%nat examples.underA []).1
  = (None, Some faulty.ErrClosed)
  ∧ (keytransform.Query examples.cleaned d 0%nat examples.underA []).2
    = [recorder.CallQuery 0%nat (dsq.mkQuery "/ns/a" dsq.zeroRange [] [] 0 0)].
Proof.
  intros d.
  destruct (Query_fails_with_child examples.cleaned d 0%nat examples.underA [])
    as (Hstate & Herr & Hnone).
  split; [|exact Hstate].
  destruct (keytransform.Query examples.cleaned d 0%nat examples.underA []).1
    as [qr err].
  simpl in Herr, Hnone. rewrite Herr, (proj2 Hnone); [reflexivity|discriminate].
Defined.

Lemma stream_round_trip_witness :
  let failed := dsq.mkResult (memstore.entry "/b" []) (Some (errorString "lost")) in
  dsq.ResultsFromIterator 3 examples.plain
    (dsq.mkIterator (keytransform.queryNext examples.prefixed) keytransform.queryClose)
    [dsq.mkResult (memstore.entry "/ns/a" []) None;
     dsq.mkResult (memstore.entry "/ns/b" []) (Some (errorString "lost"))]
  = [dsq.mkResult (memstore.entry "/a" []) None;
     dsq.mkResult (memstore.entry "/ns/b" []) (Some (errorString "lost"))].
Proof.
  intros failed.
  apply (stream_round_trip examples.prefixed examples.plain
           [dsq.mkResult (memstore.entry "/a" []) None; failed]).
  intros k. apply prefix_roundtrip.
Defined.

Lemma Batch_wraps_nil_batch_witness :
  ∃ t, keytransform.Batch
         (keytransform.mkDatastore _ faulty.store (keytransform.PrefixTransform "/ns"))
         7%nat []
       = ((Some t, None), [recorder.CallBatch 7%nat])
       ∧ ∀ (ctx' : Context) (k : key.Key) (val : list byte) (s1 : list recorder.Call),
           keytransform.transformBatch_Put t ctx' k val s1 = None
           ∧ keytransform.transformBatch_Delete t ctx' k s1 = None
           ∧ keytransform.transformBatch_Commit t ctx' s1 = None.
Proof.
  eapply (Batch_wraps_nil_batch
            (keytransform.mkDatastore _ faulty.store (keytransform.PrefixTransform "/ns"))
            7%nat []); reflexivity.
Defined.

Lemma writes_stay_apart_witness :
  (keytransform.Get examples.prefixed 0%nat "/b"
     (keytransform.Put examples.prefixed 0%nat "/a" ["x"%byte]
        [memstore.entry "/ns/b" ["y"%byte]]).2).1
  = (["y"%byte], None).
Proof.
  destruct (writes_stay_apart examples.prefixed) with
    (ctx := 0%nat) (ctx' := 0%nat) (k := "/a") (k' := "/b") (v := ["x"%byte])
    (s := [memstore.entry "/ns/b" ["y"%byte]]) as (Hget & _).
  - intros k. apply prefix_roundtrip.
  - intros ctx ctx' k k' v s Hne c. subst c. simpl.
    rewrite !find_put_other, !find_remove_other by done.
    by destruct (memstore.find k' s).
  - done.
  - rewrite Hget. reflexivity.
Defined.

Lemma stacked_batch_witness :
  let inner := keytransform.mkDatastore _ (recorder.store true)
                 (keytransform.PrefixTransform "/ns") in
  let t := keytransform.PrefixTransform "/app" in
  ∃ b, keytransform.Batch
         (keytransform.mkDatastore _ (keytransform.asDatastore examples.cleaned inner) t)
         7%nat []
       = ((Some b, None), [recorder.CallBatch 7%nat])
       ∧ keytransform.transformBatch_Put b 8%nat "/a" [] [recorder.CallBatch 7%nat]
         = Some (None, [recorder.CallBatch 7%nat;
                        recorder.CallBatchPut 8%nat "/ns/app/a" []]).
Proof.
  intros inner t.
  destruct (stacked_batch examples.cleaned inner t 7%nat []) as (_ & Hok & _).
  destruct (Hok _ recorder.batch [recorder.CallBatch 7%nat] eq_refl eq_refl)
    as (b & Hb & Hops).
  exists b. split; [exact Hb|].
  destruct (Hops 8%nat "/a" [] [recorder.CallBatch 7%nat]) as (Hput & _).
  exact Hput.
Defined.

Lemma stacked_query_witness :
  let t := keytransform.PrefixTransform "/app" in
  keytransform.Query examples.cleaned
    (keytransform.mkDatastore _
       (keytransform.asDatastore examples.cleaned examples.prefixed) t)
    0%nat examples.plain [memstore.entry "/ns/app/a" []; memstore.entry "/ns/other" []]
  = ((Some [dsq.mkResult (memstore.entry "/a" []) None], None),
     [memstore.entry "/ns/app/a" []; memstore.entry "/ns/other" []]).
Proof.
  intros t.
  destruct (stacked_query examples.cleaned examples.prefixed t 0%nat examples.plain
              [memstore.entry "/ns/app/a" []; memstore.entry "/ns/other" []])
    as (Hok & _).
  rewrite (Hok [dsq.mkResult (memstore.entry "/ns/app/a" []) None]
             [memstore.entry "/ns/app/a" []; memstore.entry "/ns/other" []]).
  - reflexivity.
  - reflexivity.
Defined.

(** * More of the planner on the heap *)
Section HeapSharing.
Context {W : Type} (Clean : key.Key → key.Key).
Variable d : keytransform.Datastore W.
Implicit Types (h : mem.Heap) (q naive child : mem.Query) (sl : mem.Slice).

(** The slice [sl'] is a window on the array of [sl] that starts where
    [sl] starts. *)
Local Abbreviation shares sl' sl :=
  (mem.array sl' = mem.array sl ∧ mem.off sl' = mem.off sl ∧ mem.cap sl' = mem.cap sl).

Lemma ordersLoop_shape (op : bool) h q rng (n i : nat) naive child naive' child' :
  mem.ordersLoop op h q rng n i naive child = Some (naive', child') →
  mem.Filters naive' = mem.Filters naive
  ∧ mem.Filters child' = mem.Filters child
  ∧ (mem.Orders naive' = mem.Orders naive ∨ mem.Orders naive' = mem.Orders q)
  ∧ (mem.Orders child' = mem.nilSlice ∨ shares (mem.Orders child') (mem.Orders child)).
Proof.
  revert i. induction n as [|n IH]; intros i Hrun; simpl in Hrun.
  { simplify_eq. repeat split; auto. }
  destruct (mem.indexOrders h rng i) as [o|]; [|done]. simpl in Hrun.
  assert (Hpunt : Some (mem.puntOrders q naive child) = Some (naive', child') →
    mem.Filters naive' = mem.Filters naive
    ∧ mem.Filters child' = mem.Filters child
    ∧ (mem.Orders naive' = mem.Orders naive ∨ mem.Orders naive' = mem.Orders q)
    ∧ (mem.Orders child' = mem.nilSlice ∨ shares (mem.Orders child') (mem.Orders child))).
  { intros Heq. injection Heq as <- <-. simpl. repeat split; auto. }
  assert (Hcut : (if op
                  then sl ← mem.resliceTo (mem.Orders child) (S i);
                       Some (naive, mem.setOrders child sl)
                  else Some (mem.puntOrders q naive child)) = Some (naive', child') →
    mem.Filters naive' = mem.Filters naive
    ∧ mem.Filters child' = mem.Filters child
    ∧ (mem.Orders naive' = mem.Orders naive ∨ mem.Orders naive' = mem.Orders q)
    ∧ (mem.Orders child' = mem.nilSlice ∨ shares (mem.Orders child') (mem.Orders child))).
  { destruct op; [|exact Hpunt]. unfold mem.resliceTo.
    destruct (decide (S i ≤ mem.cap (mem.Orders child))%nat); [|done].
    simpl. intros Heq. injection Heq as <- <-. simpl. repeat split; auto. }
  destruct o; eauto.
Qed.

Lemma filtersLoop_shape q rng (n i : nat) h naive child h' naive' child' :
  mem.filtersLoop d q rng n i h naive child = Some (h', (naive', child')) →
  mem.Orders naive' = mem.Orders naive
  ∧ mem.Orders child' = mem.Orders child
  ∧ (mem.Filters naive' = mem.Filters naive ∨ mem.Filters naive' = mem.Filters q)
  ∧ (mem.Filters child' = mem.Filters child ∨ mem.Filters child' = mem.nilSlice).
Proof.
  revert i h. induction n as [|n IH]; intros i h Hrun; simpl in Hrun.
  { simplify_eq. repeat split; auto. }
  destruct (mem.indexFilters h rng i) as [f|]; [|done]. simpl in Hrun.
  destruct f as [op v|p|op k|p|p|p|g].
  - by eapply IH.
  - by eapply IH.
  - destruct (mem.storeFilter h _ i _) as [h1|]; [|done]. by eapply IH.
  - destruct (h !! p) as [[| | |op k|]|]; simpl in Hrun; try done.
    destruct (mem.storeFilter _ _ i _) as [h1|]; [|done]. by eapply IH.
  - destruct (mem.storeFilter h _ i _) as [h1|]; [|done]. by eapply IH.
  - destruct (h !! p) as [[| | | |k]|]; simpl in Hrun; try done.
    destruct (mem.storeFilter _ _ i _) as [h1|]; [|done]. by eapply IH.
  - injection Hrun as <- <- <-. simpl. repeat split; auto.
Qed.

(** X17.  What the two queries share with the caller.  The orders are
    never copied: the orders of the naive query are nil or the very slice
    of the caller, and the orders of the child are nil or a window, from the
    same start, on the caller's array.  The filters of the naive query are
    nil or the very slice of the caller; the filters of the child are nil or
    a slice on an array that was not in the heap before the call, so that
    what is written through them cannot be seen through a slice of the
    caller. *)
Theorem prepareQuery_sharing h q h' naive child :
  mem.prepareQuery Clean d h q = Some (h', (naive, child)) →
  (mem.Orders naive = mem.nilSlice ∨ mem.Orders naive = mem.Orders q)
  ∧ (mem.Orders child = mem.nilSlice ∨ shares (mem.Orders child) (mem.Orders q))
  ∧ (mem.Filters naive = mem.nilSlice ∨ mem.Filters naive = mem.Filters q)
  ∧ (mem.Filters child = mem.nilSlice
     ∨ ∃ l, mem.array (mem.Filters child) = Some l ∧ h !! l = None).
Proof.
  unfold mem.prepareQuery. cbv zeta. simpl. intros Hrun.
  destruct (mem.ordersLoop _ h q _ _ 0 _ _) as [[naive1 child1]|] eqn:Ho; [|done].
  apply ordersLoop_shape in Ho as (Hfn1 & Hfc1 & Hon1 & Hoc1). simpl in *.
  destruct (mem.appendToNil h (mem.Filters child1)) as [[h1 copy]|] eqn:Hcopy; [|done].
  simpl in Hrun.
  apply filtersLoop_shape in Hrun as (Hon & Hoc & Hfn & Hfc). simpl in *.
  rewrite Hon, Hoc, Hfn1 in *.
  split; [destruct Hon1; auto|]. split; [done|].
  split; [destruct Hfn; auto|].
  destruct Hfc as [-> | ->]; [|by left].
  unfold mem.appendToNil in Hcopy.
  destruct (mem.readFilters h (mem.Filters child1)) as [[|m ms]|]; simplify_eq/=.
  - by left.
  - right. eexists. split; [done|]. apply not_elem_of_dom, is_fresh.
Qed.

(** X18.  For a query without filters [prepareQuery] allocates nothing and
    writes nothing: the heap it leaves is the heap it started from, and the
    filters of the child are the nil slice. *)
Theorem prepareQuery_no_filters_no_allocation h q h' naive child :
  mem.prepareQuery Clean d h q = Some (h', (naive, child)) →
  mem.len (mem.Filters q) = 0%nat →
  h' = h ∧ mem.Filters child = mem.nilSlice ∧ mem.Filters naive = mem.nilSlice.
Proof.
  unfold mem.prepareQuery. cbv zeta. simpl. intros Hrun Hlen.
  destruct (mem.ordersLoop _ h q _ _ 0 _ _) as [[naive1 child1]|] eqn:Ho; [|done].
  apply ordersLoop_shape in Ho as (Hfn1 & Hfc1 & _ & _). simpl in *.
  unfold mem.appendToNil in Hrun. rewrite Hfc1 in Hrun.
  destruct (mem.readFilters h (mem.Filters q)) as [fs|] eqn:Hread; [|done].
  assert (length fs = 0%nat) as Hnil.
  { rewrite <- Hlen. unfold mem.readFilters in Hread.
    destruct (mem.array (mem.Filters q)); simpl in Hread.
    - destruct (mem.filtersArray h l); [|done]. by eapply window_length.
    - by eapply window_length. }
  destruct fs; [|done]. simpl in Hrun. by simplify_eq.
Qed.

End HeapSharing.

Lemma prepareQuery_sharing_witness :
  ∃ h' naive child,
    mem.prepareQuery examples.cleaned examples.prefixed examples.heap examples.heapQuery
    = Some (h', (naive, child))
    ∧ mem.Orders naive = mem.nilSlice
    ∧ mem.array (mem.Orders child) = Some 1%positive
    ∧ mem.Filters naive = mem.nilSlice
    ∧ ∃ l, mem.array (mem.Filters child) = Some l ∧ examples.heap !! l = None.
Proof.
  destruct (mem.prepareQuery examples.cleaned examples.prefixed examples.heap
              examples.heapQuery) as [[h' [naive child]]|] eqn:Hrun;
    [|vm_compute in Hrun; discriminate].
  exists h', naive, child. split; [reflexivity|].
  destruct (prepareQuery_sharing examples.cleaned examples.prefixed examples.heap
              examples.heapQuery h' naive child Hrun) as (Hon & Hoc & Hfn & Hfc).
  vm_compute in Hrun. injection Hrun as <- <- <-.
  split; [reflexivity|]. split; [reflexivity|]. split; [reflexivity|].
  destruct Hfc as [Hnil|Hnew]; [discriminate Hnil|exact Hnew].
Defined.

Lemma prepareQuery_no_filters_no_allocation_witness :
  ∃ naive child,
    mem.prepareQuery examples.cleaned examples.prefixed examples.heap
      (mem.setFilters examples.heapQuery mem.nilSlice)
    = Some (examples.heap, (naive, child))
    ∧ mem.Filters child = mem.nilSlice.
Proof.
  destruct (mem.prepareQuery examples.cleaned examples.prefixed examples.heap
              (mem.setFilters examples.heapQuery mem.nilSlice))
    as [[h' [naive child]]|] eqn:Hrun; [|vm_compute in Hrun; discriminate].
  destruct (prepareQuery_no_filters_no_allocation examples.cleaned examples.prefixed
              examples.heap (mem.setFilters examples.heapQuery mem.nilSlice)
              h' naive child Hrun eq_refl) as (-> & Hfc & _).
  by exists naive, child.
Defined.
